(** * Resilience layer of the AWS agent backend

    A shallow embedding of three Go packages and the properties their
    design document states about them:

    - [CircuitBreaker]: [backend/pkg/circuitbreaker/breaker.go];
    - [RateLimit]: package [ratelimit] of
      [backend/internal/middleware/ratelimit/ratelimit.go];
    - [Retry]: package [retry], the second half of the same file.

    Conventions.  Go's fixed-width integers are [Z] with the wrap-around
    written out ([wrap32], [wrap64], [int64]).  A [time.Time] is the number
    of nanoseconds since Go's zero instant, so that [IsZero t] is [t = 0]; a
    [time.Duration] is an [int64] count of nanoseconds.  Every method that
    takes a lock is modelled as one atomic step on the locked state, and
    every [time.Now()] is an explicit argument (the injectable clock).  Calls
    to a [zap.Logger] leave no trace in the state and are omitted. *)

From Stdlib Require Import ZArith Floats Lia List.
From stdpp Require Import base option gmap strings.
Import ListNotations.

#[local] Open Scope Z_scope.

(** ** Machine integers and time *)

Definition wrap32 (x : Z) : Z := x mod 2 ^ 32.
Definition wrap64 (x : Z) : Z := x mod 2 ^ 64.

Definition min_int64 : Z := - 2 ^ 63.
Definition max_int64 : Z := 2 ^ 63 - 1.

(** Two's complement reading of the low 64 bits: Go's [int] and [int64]
    arithmetic on a 64-bit platform. *)
Definition int64 (x : Z) : Z := (x + 2 ^ 63) mod 2 ^ 64 - 2 ^ 63.

Definition Time : Type := Z.
Definition Duration : Type := Z.

Definition zeroTime : Time := 0.
Definition IsZero (t : Time) : bool := t =? 0.
Definition Before (t u : Time) : bool := t <? u.
Definition Add (t : Time) (d : Duration) : Time := t + d.

(** [t.Sub(u)] saturates at the largest and smallest [Duration]. *)
Definition Sub (t u : Time) : Duration :=
  Z.max min_int64 (Z.min max_int64 (t - u)).

(** ** The circuit breaker *)

Module CircuitBreaker.

Inductive State : Type := StateClosed | StateHalfOpen | StateOpen.

#[global] Instance State_eq_dec : EqDecision State.
Proof. solve_decision. Defined.

(** The error values the package handles: its two sentinels and whatever
    the wrapped function returns, told apart by a tag. *)
Inductive error : Type :=
| ErrCircuitOpen
| ErrTooManyRequests
| ErrOperation (tag : string).

Record Config : Type := mkConfig {
  MaxRequests : Z;
  Interval : Duration;
  Timeout : Duration;
  FailureThreshold : Z;
  SuccessThreshold : Z;
  OnStateChange : bool          (* whether a callback is installed *)
}.

Record counts : Type := mkCounts {
  Requests : Z;
  TotalSuccesses : Z;
  TotalFailures : Z;
  ConsecutiveSuccesses : Z;
  ConsecutiveFailures : Z
}.

(** [notified] is the only addition to the Go struct: the calls made to
    the [onStateChange] callback so far, newest first. *)
Record CircuitBreaker : Type := mkBreaker {
  name : string;
  maxRequests : Z;
  interval : Duration;
  timeout : Duration;
  failureThreshold : Z;
  successThreshold : Z;
  onStateChange : bool;
  state : State;
  generation : Z;
  cb_counts : counts;
  expiry : Time;
  notified : list (State * State)
}.

Definition zero_counts : counts := mkCounts 0 0 0 0 0.

Definition set_state (cb : CircuitBreaker) (s : State) : CircuitBreaker :=
  mkBreaker (name cb) (maxRequests cb) (interval cb) (timeout cb)
    (failureThreshold cb) (successThreshold cb) (onStateChange cb)
    s (generation cb) (cb_counts cb) (expiry cb) (notified cb).

Definition set_generation (cb : CircuitBreaker) (g : Z) : CircuitBreaker :=
  mkBreaker (name cb) (maxRequests cb) (interval cb) (timeout cb)
    (failureThreshold cb) (successThreshold cb) (onStateChange cb)
    (state cb) g (cb_counts cb) (expiry cb) (notified cb).

Definition set_counts (cb : CircuitBreaker) (c : counts) : CircuitBreaker :=
  mkBreaker (name cb) (maxRequests cb) (interval cb) (timeout cb)
    (failureThreshold cb) (successThreshold cb) (onStateChange cb)
    (state cb) (generation cb) c (expiry cb) (notified cb).

Definition set_expiry (cb : CircuitBreaker) (t : Time) : CircuitBreaker :=
  mkBreaker (name cb) (maxRequests cb) (interval cb) (timeout cb)
    (failureThreshold cb) (successThreshold cb) (onStateChange cb)
    (state cb) (generation cb) (cb_counts cb) t (notified cb).

Definition notify (cb : CircuitBreaker) (from to : State) : CircuitBreaker :=
  mkBreaker (name cb) (maxRequests cb) (interval cb) (timeout cb)
    (failureThreshold cb) (successThreshold cb) (onStateChange cb)
    (state cb) (generation cb) (cb_counts cb) (expiry cb)
    ((from, to) :: notified cb).

(** [generation++], [counts = counts{}], then the expiry of the new
    state. *)
Definition toNewGeneration (cb : CircuitBreaker) (now : Time) : CircuitBreaker :=
  let cb := set_generation cb (wrap64 (generation cb + 1)) in
  let cb := set_counts cb zero_counts in
  match state cb with
  | StateClosed =>
      if interval cb =? 0 then set_expiry cb zeroTime
      else set_expiry cb (Add now (interval cb))
  | StateOpen => set_expiry cb (Add now (timeout cb))
  | StateHalfOpen => set_expiry cb zeroTime
  end.

Definition setState (cb : CircuitBreaker) (s : State) (now : Time) : CircuitBreaker :=
  if bool_decide (state cb = s) then cb
  else
    let prev := state cb in
    let cb := set_state cb s in
    let cb := toNewGeneration cb now in
    if onStateChange cb then notify cb prev s else cb.

(** The lazy transitions, taken whenever a call looks at the state. *)
Definition currentState (cb : CircuitBreaker) (now : Time)
  : State * Z * CircuitBreaker :=
  let cb' :=
    match state cb with
    | StateClosed =>
        if negb (IsZero (expiry cb)) && Before (expiry cb) now
        then toNewGeneration cb now else cb
    | StateOpen =>
        if Before (expiry cb) now then setState cb StateHalfOpen now else cb
    | StateHalfOpen => cb
    end in
  (state cb', generation cb', cb').

Definition incRequests (c : counts) : counts :=
  mkCounts (wrap32 (Requests c + 1)) (TotalSuccesses c) (TotalFailures c)
    (ConsecutiveSuccesses c) (ConsecutiveFailures c).

Definition beforeRequest (cb : CircuitBreaker) (now : Time)
  : Z * option error * CircuitBreaker :=
  let '(st, gen, cb) := currentState cb now in
  if bool_decide (st = StateOpen) then (gen, Some ErrCircuitOpen, cb)
  else if bool_decide (st = StateHalfOpen) && (Requests (cb_counts cb) >=? maxRequests cb)
  then (gen, Some ErrTooManyRequests, cb)
  else (gen, None, set_counts cb (incRequests (cb_counts cb))).

Definition onSuccess (cb : CircuitBreaker) (st : State) (now : Time) : CircuitBreaker :=
  let c := cb_counts cb in
  let c := mkCounts (Requests c) (wrap32 (TotalSuccesses c + 1)) (TotalFailures c)
             (wrap32 (ConsecutiveSuccesses c + 1)) 0 in
  let cb := set_counts cb c in
  if bool_decide (st = StateHalfOpen)
     && (ConsecutiveSuccesses (cb_counts cb) >=? successThreshold cb)
  then setState cb StateClosed now else cb.

Definition onFailure (cb : CircuitBreaker) (st : State) (now : Time) : CircuitBreaker :=
  let c := cb_counts cb in
  let c := mkCounts (Requests c) (TotalSuccesses c) (wrap32 (TotalFailures c + 1))
             0 (wrap32 (ConsecutiveFailures c + 1)) in
  let cb := set_counts cb c in
  if bool_decide (st = StateClosed)
     && (ConsecutiveFailures (cb_counts cb) >=? failureThreshold cb)
  then setState cb StateOpen now
  else if bool_decide (st = StateHalfOpen) then setState cb StateOpen now
  else cb.

Definition afterRequest (cb : CircuitBreaker) (before : Z) (success : bool)
    (now : Time) : CircuitBreaker :=
  let '(st, gen, cb) := currentState cb now in
  if bool_decide (gen = before) then
    if success then onSuccess cb st now else onFailure cb st now
  else cb.

Definition NewCircuitBreaker (nm : string) (cfg : Config) (now : Time)
  : CircuitBreaker :=
  let cb :=
    mkBreaker nm
      (if MaxRequests cfg =? 0 then 1 else MaxRequests cfg)
      (if Interval cfg =? 0 then 0 else Interval cfg)
      (if Timeout cfg =? 0 then 60 * 1000000000 else Timeout cfg)
      (if FailureThreshold cfg =? 0 then 5 else FailureThreshold cfg)
      (if SuccessThreshold cfg =? 0 then 2 else SuccessThreshold cfg)
      (OnStateChange cfg)
      StateClosed 0 zero_counts zeroTime [] in
  toNewGeneration cb now.

(** How a call of the wrapped function ends: it returns an error (or
    [nil]), or it panics with some value. *)
Inductive outcome : Type :=
| Returned (err : option error)
| Panicked (r : string).

(** [Execute] for one caller: [fn] runs on the world [W] outside the lock,
    between the clock readings [t1] of [beforeRequest] and [t2] of
    [afterRequest].  A panic of [fn] is recorded as a failure and raised
    again. *)
Definition Execute {W : Type} (cb : CircuitBreaker) (fn : W -> outcome * W)
    (t1 t2 : Time) (w : W) : outcome * CircuitBreaker * W :=
  let '(gen, err, cb) := beforeRequest cb t1 in
  match err with
  | Some e => (Returned (Some e), cb, w)
  | None =>
      let '(o, w) := fn w in
      match o with
      | Returned err => (Returned err, afterRequest cb gen (bool_decide (err = None)) t2, w)
      | Panicked r => (Panicked r, afterRequest cb gen false t2, w)
      end
  end.

Definition State_ (cb : CircuitBreaker) (now : Time) : State * CircuitBreaker :=
  let '(st, _, cb) := currentState cb now in (st, cb).

Definition Counts (cb : CircuitBreaker) : counts := cb_counts cb.

(** *** Vocabulary of the properties *)

(** Whether a lazy transition is due at [now]: the conditions under which
    [currentState] moves the breaker. *)
Definition transition_due (cb : CircuitBreaker) (now : Time) : bool :=
  match state cb with
  | StateClosed => negb (IsZero (expiry cb)) && Before (expiry cb) now
  | StateOpen => Before (expiry cb) now
  | StateHalfOpen => false
  end.

(** Whether a call of the wrapped function counts as a success: it
    returned [nil]. *)
Definition succeeded (o : outcome) : bool :=
  match o with
  | Returned None => true
  | _ => false
  end.

(** The breaker after it let a call in: [cb.counts.Requests++]. *)
Definition admission (cb : CircuitBreaker) : CircuitBreaker :=
  set_counts cb (incRequests (cb_counts cb)).

(** The breaker entered a new generation of [cb]: every counter is zero
    and the generation is one more (modulo 2^64, as for any [uint64]). *)
Definition fresh_generation (cb cb' : CircuitBreaker) : Prop :=
  cb_counts cb' = zero_counts /\ generation cb' = wrap64 (generation cb + 1).

(** A breaker as a deployment reaches it: created at time 1000 with a
    failure threshold of 1 and an open timeout of 60 s; calls A and B are
    admitted in generation 1; B fails at time 2000 and trips the breaker,
    which is then Open in generation 2 until 60000002000.  Call A is still
    running. *)
Definition demo_config : Config := mkConfig 1 0 (60 * 1000000000) 1 2 false.

Definition tripped : CircuitBreaker :=
  let cb := NewCircuitBreaker "llm" demo_config 1000 in
  let cb := (beforeRequest cb 1000).2 in
  let cb := (beforeRequest cb 1000).2 in
  afterRequest cb 1 false 2000.

(** A wrapped function that counts its invocations in the world. *)
Definition counting_fn (n : nat) : outcome * nat := (Returned None, S n).

(** *** Sequences of calls *)

(** The calls a program can make on a breaker: the two halves of
    [Execute] and the [State] query, each with its clock reading. *)
Inductive call : Type :=
| CallBefore (now : Time)
| CallAfter (before : Z) (success : bool) (now : Time)
| CallState (now : Time).

Definition apply_call (cb : CircuitBreaker) (c : call) : CircuitBreaker :=
  match c with
  | CallBefore now => (beforeRequest cb now).2
  | CallAfter before success now => afterRequest cb before success now
  | CallState now => (State_ cb now).2
  end.

Definition after_calls (cb : CircuitBreaker) (cs : list call) : CircuitBreaker :=
  fold_left apply_call cs cb.

(** [Execute] calls made one after the other, each with its wrapped
    function and its two clock readings. *)
Fixpoint Execute_all {W : Type} (cb : CircuitBreaker)
    (calls : list ((W -> outcome * W) * Time * Time)) (w : W)
  : list outcome * CircuitBreaker * W :=
  match calls with
  | [] => ([], cb, w)
  | (fn, t1, t2) :: rest =>
      let '(o, cb, w) := Execute cb fn t1 t2 w in
      let '(os, cb, w) := Execute_all cb rest w in
      (o :: os, cb, w)
  end.

(** A configuration whose [uint32] fields are in range. *)
Definition valid_config (cfg : Config) : Prop :=
  0 <= MaxRequests cfg < 2 ^ 32 /\
  0 <= FailureThreshold cfg < 2 ^ 32 /\
  0 <= SuccessThreshold cfg < 2 ^ 32.

(** What holds of a breaker between calls. *)
Definition at_rest (cb : CircuitBreaker) : Prop :=
  let c := cb_counts cb in
  0 < maxRequests cb /\ 0 < failureThreshold cb /\ 0 < successThreshold cb /\
  0 <= Requests c /\
  (ConsecutiveSuccesses c = 0 \/ ConsecutiveFailures c = 0) /\
  (state cb = StateClosed -> ConsecutiveFailures c < failureThreshold cb) /\
  (state cb = StateHalfOpen ->
     ConsecutiveSuccesses c < successThreshold cb /\ ConsecutiveFailures c = 0 /\
     Requests c <= maxRequests cb /\ expiry cb = zeroTime).

(** The wrapped function fails wherever it is run: it returns an error or
    panics. *)
Definition always_fails {W : Type} (fn : W -> outcome * W) : Prop :=
  forall w, succeeded (fn w).1 = false.

Definition always_succeeds {W : Type} (fn : W -> outcome * W) : Prop :=
  forall w, succeeded (fn w).1 = true.

(** The wrapped functions of a list of calls run one after the other on
    the world, with no breaker in between. *)
Fixpoint run_fns {W : Type} (calls : list ((W -> outcome * W) * Time * Time))
    (w : W) : list outcome * W :=
  match calls with
  | [] => ([], w)
  | (fn, _, _) :: rest =>
      let '(o, w) := fn w in
      let '(os, w) := run_fns rest w in
      (o :: os, w)
  end.

(** Calls that bring a breaker of [demo_config] to HalfOpen with its one
    probe admitted: a call admitted, its failure, and a call after the open
    timeout. *)
Definition probe_calls : list call :=
  [CallBefore 1000; CallAfter 1 false 2000; CallBefore 60000002001].

(** The configuration the LLM client passes to [NewCircuitBreaker], and
    that breaker, created at time 1000, after it admitted a call at 2000. *)
Definition llm_config : Config :=
  mkConfig 5 (60 * 1000000000) (30 * 1000000000) 5 2 false.

Definition llm_busy : CircuitBreaker :=
  (beforeRequest (NewCircuitBreaker "llm" llm_config 1000) 2000).2.

(** A breaker of the zero configuration (every default applies: one
    probe, a timeout of 60 s, thresholds 5 and 2), created at time 1000; a
    wrapped function that fails and counts its invocations. *)
Definition default_breaker : CircuitBreaker :=
  NewCircuitBreaker "svc" (mkConfig 0 0 0 0 0 false) 1000.

Definition failing_fn (n : nat) : outcome * nat :=
  (Returned (Some (ErrOperation "down")), S n).

(** The LLM client's breaker, opened by five failures and looked at after
    its timeout: HalfOpen with five probes to give. *)
Definition llm_halfopen : CircuitBreaker :=
  let cb := NewCircuitBreaker "llm" llm_config 1000 in
  let cb := (Execute_all cb (replicate 5 (failing_fn, 2000, 3000)) 0%nat).1.2 in
  (currentState cb 40000000000).2.

(** [default_breaker], opened by five failures, after its single probe
    succeeded: HalfOpen, one success short of closing, no probe left. *)
Definition default_probed : CircuitBreaker :=
  (Execute_all default_breaker
     (replicate 5 (failing_fn, 2000, 3000)
        ++ [(counting_fn, 70000000000, 70000000001)]) 0%nat).1.2.

End CircuitBreaker.

(** ** The rate limiter *)

Module RateLimit.

Record bucket : Type := mkBucket {
  tokens : Z;
  lastRefill : Time
}.

(** The map holds pointers to buckets; a bucket is only ever reached
    through the map, so storing the updated bucket back under its key is
    the mutation through the pointer. *)
Record RateLimiter : Type := mkLimiter {
  buckets : gmap string bucket;
  maxTokens : Z;
  refillRate : Duration;
  tokensPerReq : Z
}.

Record Config : Type := mkConfig {
  MaxRequestsPerMinute : Z;
  WindowDuration : Duration
}.

Definition minute : Duration := 60 * 1000000000.

Definition min (a b : Z) : Z := if a <? b then a else b.

Definition New (cfg : Config) : RateLimiter :=
  let m := if MaxRequestsPerMinute cfg =? 0 then 60 else MaxRequestsPerMinute cfg in
  let w := if WindowDuration cfg =? 0 then minute else WindowDuration cfg in
  mkLimiter ∅ m (int64 (w ÷ m)) 1.

Definition set_buckets (rl : RateLimiter) (m : gmap string bucket) : RateLimiter :=
  mkLimiter m (maxTokens rl) (refillRate rl) (tokensPerReq rl).

(** Lines 80-92 of [allow]: the bucket of [key], created full at the clock
    reading [t0] when the key is new. *)
Definition getBucket (rl : RateLimiter) (key : string) (t0 : Time)
  : bucket * RateLimiter :=
  match buckets rl !! key with
  | Some b => (b, rl)
  | None =>
      let b := mkBucket (maxTokens rl) t0 in
      (b, set_buckets rl (<[key := b]> (buckets rl)))
  end.

(** [int(elapsed / rl.refillRate)]; [None] is the run-time panic of an
    integer division by zero. *)
Definition tokensToAdd (rl : RateLimiter) (b : bucket) (now : Time) : option Z :=
  let elapsed := Sub now (lastRefill b) in
  if refillRate rl =? 0 then None
  else Some (int64 (elapsed ÷ refillRate rl)).

Definition refill (rl : RateLimiter) (b : bucket) (toAdd : Z) (now : Time) : bucket :=
  if toAdd >? 0
  then mkBucket (min (maxTokens rl) (int64 (tokens b + toAdd))) now
  else b.

Definition consume (rl : RateLimiter) (b : bucket) : bool * bucket :=
  if tokens b >=? tokensPerReq rl
  then (true, mkBucket (int64 (tokens b - tokensPerReq rl)) (lastRefill b))
  else (false, b).

(** [allow] at the clock readings [t0] (bucket creation) and [now].  The
    result [None] is the panic; the bucket created before it stays in the
    map. *)
Definition allow (rl : RateLimiter) (key : string) (t0 now : Time)
  : option bool * RateLimiter :=
  let '(b, rl) := getBucket rl key t0 in
  match tokensToAdd rl b now with
  | None => (None, rl)
  | Some toAdd =>
      let b := refill rl b toAdd now in
      let '(ok, b) := consume rl b in
      (Some ok, set_buckets rl (<[key := b]> (buckets rl)))
  end.

(** One round of the sweep started by [New]. *)
Definition cleanup (rl : RateLimiter) (now : Time) : RateLimiter :=
  set_buckets rl
    (filter (fun kb => negb (Sub now (lastRefill kb.2) >? 10 * minute) = true)
       (buckets rl)).

(** A run of [allow] calls; each call comes with its key and its two
    clock readings.  The list holds the limiter before the first call and
    after every call. *)
Fixpoint run (rl : RateLimiter) (calls : list (string * Time * Time))
  : list RateLimiter :=
  match calls with
  | [] => [rl]
  | (key, t0, now) :: rest => rl :: run (allow rl key t0 now).2 rest
  end.

(** *** Vocabulary of the properties *)

Definition bucket_ok (rl : RateLimiter) (b : bucket) : Prop :=
  0 <= tokens b <= maxTokens rl.

Definition buckets_ok (rl : RateLimiter) : Prop :=
  map_Forall (fun _ b => bucket_ok rl b) (buckets rl).

(** A limiter as [New] builds it from a sensible configuration: a
    capacity that is not negative, a positive refill interval, one token
    per request, and a capacity to which the tokens of the longest
    measurable pause can be added within an [int]. *)
Definition well_configured (rl : RateLimiter) : Prop :=
  0 <= maxTokens rl /\ 0 < refillRate rl /\ tokensPerReq rl = 1 /\
  maxTokens rl + max_int64 ÷ refillRate rl <= max_int64.

(** The limiter of the default configuration (60 requests per minute,
    one token per second), after a first request of "alice" at second 5. *)
Definition default_limiter : RateLimiter := New (mkConfig 0 0).

Definition alice_seen : RateLimiter :=
  (allow default_limiter "alice" 5000000000 5000000000).2.

(** Capacity 60: sixty-one requests of one key within the same second. *)
Definition burst : list (string * Time * Time) :=
  replicate 61 ("alice", 5000000000, 5000000000).

(** *** Further vocabulary *)

(** Requests of one key at the clock readings [times]; each reading serves
    as both readings of its call.  The results come in the order of the
    calls. *)
Fixpoint allow_all (rl : RateLimiter) (key : string) (times : list Time)
  : list (option bool) * RateLimiter :=
  match times with
  | [] => ([], rl)
  | now :: rest =>
      let '(r, rl) := allow rl key now now in
      let '(rs, rl) := allow_all rl key rest in
      (r :: rs, rl)
  end.

(** The tokens of a bucket after the refill of a call that computed
    [toAdd]. *)
Definition refilled (rl : RateLimiter) (b : bucket) (toAdd : Z) : Z :=
  if toAdd >? 0 then min (maxTokens rl) (tokens b + toAdd) else tokens b.

(** What the middleware reads from a request: the client address, and the
    value of the X-User-ID header, empty when the header is absent. *)
Record request : Type := mkRequest {
  IP : string;
  X_User_ID : string
}.

(** The response of the middleware: the 429 body, or whatever the rest of
    the handler chain ([c.Next()]) returns. *)
Inductive response (R : Type) : Type :=
| TooManyRequests
| Next (r : R).
#[global] Arguments TooManyRequests {R}.
#[global] Arguments Next {R}.

Definition requestKey (req : request) : string :=
  if bool_decide (X_User_ID req = "") then IP req else X_User_ID req.

(** The handler returned by [Middleware], run on one request; [next] is
    the rest of the chain, acting on the state [H] of the handlers.  [None]
    is the panic of [allow]. *)
Definition Middleware {H R : Type} (rl : RateLimiter) (req : request)
    (t0 now : Time) (next : H -> R * H) (h : H)
  : option (response R) * RateLimiter * H :=
  let key := requestKey req in
  match allow rl key t0 now with
  | (None, rl) => (None, rl, h)
  | (Some false, rl) => (Some TooManyRequests, rl, h)
  | (Some true, rl) => let '(r, h) := next h in (Some (Next r), rl, h)
  end.

(** Requests served one after the other at the same clock reading. *)
Fixpoint Middleware_all {H R : Type} (rl : RateLimiter) (reqs : list request)
    (now : Time) (next : H -> R * H) (h : H)
  : list (option (response R)) * RateLimiter * H :=
  match reqs with
  | [] => ([], rl, h)
  | req :: rest =>
      let '(r, rl, h) := Middleware rl req now now next h in
      let '(rs, rl, h) := Middleware_all rl rest now next h in
      (r :: rs, rl, h)
  end.

End RateLimit.

(** ** The retry executor *)

Module Retry.

(** [float64(x)] for an [int64]: round to nearest, ties to even. *)
Definition float64_of_int64 (x : Z) : float :=
  if x =? min_int64 then (-9223372036854775808)%float
  else if x <? 0 then (- of_uint63 (Uint63.of_Z (- x)))%float
  else of_uint63 (Uint63.of_Z x).

(** [int64(f)]: truncation toward zero.  A value outside the range, an
    infinity or a NaN gives the amd64 result [0x8000000000000000]. *)
Definition int64_of_float64 (f : float) : Z :=
  match Prim2SF f with
  | S754_zero _ => 0
  | S754_finite s m e =>
      let a := if e >=? 0 then Z.pos m * 2 ^ e else Z.pos m / 2 ^ (- e) in
      let v := if s then - a else a in
      if (min_int64 <=? v) && (v <=? max_int64) then v else min_int64
  | _ => min_int64
  end.

Definition math_Min (x y : float) : float :=
  if (PrimFloat.eqb x neg_infinity || PrimFloat.eqb y neg_infinity)%bool
  then neg_infinity
  else if (is_nan x || is_nan y)%bool then nan
  else if (PrimFloat.eqb x 0 && PrimFloat.eqb x y)%bool
  then (if get_sign x then x else y)
  else if PrimFloat.ltb x y then x else y.

Definition millisecond : Duration := 1000000.
Definition second : Duration := 1000000000.

Section WithErrors.

(** The error values of the callers and the relation [errors.Is]
    between them. *)
Context {error : Type} (errors_Is : error -> error -> bool).

Record Config : Type := mkConfig {
  MaxAttempts : Z;
  InitialDelay : Duration;
  MaxDelay : Duration;
  Multiplier : float;
  JitterFraction : float;
  RetryableErrors : list error
}.

Definition DefaultConfig : Config :=
  mkConfig 3 (100 * millisecond) (10 * second) 2 0x1.999999999999ap-4 [].

(** What [Do] needs from its surroundings, as steps on a world [W]: the
    two [select] statements on the context, and the package-level random
    source. *)
Record Runtime (W : Type) : Type := mkRuntime {
  (* select { case <-ctx.Done(): ctx.Err(); default: } *)
  ctx_Done : W -> option error * W;
  (* select { case <-ctx.Done(): ctx.Err(); case <-time.After(d): } *)
  sleep_or_Done : Duration -> W -> option error * W;
  rand_Float64 : W -> float * W;
  rand_Intn : Z -> W -> Z * W
}.
#[global] Arguments ctx_Done {W}.
#[global] Arguments sleep_or_Done {W}.
#[global] Arguments rand_Float64 {W}.
#[global] Arguments rand_Intn {W}.

Definition isRetryable (err : error) (retryableErrors : list error) : bool :=
  match retryableErrors with
  | [] => true
  | _ => existsb (errors_Is err) retryableErrors
  end.

Definition addJitter {W} (rt : Runtime W) (duration : Duration)
    (jitterFraction : float) (w : W) : Duration * W :=
  if PrimFloat.leb jitterFraction 0 then (duration, w)
  else
    let '(u, w) := rand_Float64 rt w in
    let jitter :=
      int64_of_float64 (u * float64_of_int64 duration * jitterFraction)%float in
    let '(c, w) := rand_Intn rt 2 w in
    if c =? 0 then (int64 (duration - jitter), w)
    else (int64 (duration + jitter), w).

Definition nextDelay (cfg : Config) (delay : Duration) : Duration :=
  int64_of_float64
    (math_Min (float64_of_int64 (MaxDelay cfg))
              (float64_of_int64 delay * Multiplier cfg)%float).

Definition withDefaults (cfg : Config) : Config :=
  mkConfig
    (if MaxAttempts cfg =? 0 then 3 else MaxAttempts cfg)
    (if InitialDelay cfg =? 0 then 100 * millisecond else InitialDelay cfg)
    (if MaxDelay cfg =? 0 then 10 * second else MaxDelay cfg)
    (if PrimFloat.eqb (Multiplier cfg) 0 then 2%float else Multiplier cfg)
    (JitterFraction cfg)
    (RetryableErrors cfg).

(** How one pass through the body of the [for] loop of [Do] ends: with
    a [return] (the [break] on the last attempt leads to
    [return lastErr], and [lastErr] is then the error of this pass), or
    at the bottom of the body with a new [delay] and [lastErr]. *)
Inductive step (W : Type) : Type :=
| Return (r : option error) (w : W)
| Continue (delay : Duration) (lastErr : option error) (w : W).
#[global] Arguments Return {W}.
#[global] Arguments Continue {W}.

Definition iteration {W} (rt : Runtime W) (cfg : Config)
    (operation : W -> option error * W) (attempt : Z) (delay : Duration)
    (w : W) : step W :=
  match ctx_Done rt w with
  | (Some ctxErr, w) => Return (Some ctxErr) w
  | (None, w) =>
      match operation w with
      | (None, w) => Return None w
      | (Some err, w) =>
          if negb (isRetryable err (RetryableErrors cfg)) then Return (Some err) w
          else if attempt =? MaxAttempts cfg then Return (Some err) w
          else
            let '(d, w) := addJitter rt delay (JitterFraction cfg) w in
            match sleep_or_Done rt d w with
            | (Some ctxErr, w) => Return (Some ctxErr) w
            | (None, w) => Continue (nextDelay cfg delay) (Some err) w
            end
      end
  end.

(** The [for] loop of [Do], entered with the loop variable [attempt].
    Each recursive call is one further pass; [fuel] bounds their number
    and [Do] supplies [cfg.MaxAttempts] of it, which the loop never
    uses up before its own exit (lemma [loop_fuel]). *)
Fixpoint loop {W} (rt : Runtime W) (cfg : Config) (operation : W -> option error * W)
    (fuel : nat) (attempt : Z) (delay : Duration) (lastErr : option error)
    (w : W) : option error * W :=
  if attempt <=? MaxAttempts cfg then
    match fuel with
    | O => (lastErr, w)
    | S fuel =>
        match iteration rt cfg operation attempt delay w with
        | Return r w => (r, w)
        | Continue delay lastErr w =>
            loop rt cfg operation fuel (attempt + 1) delay lastErr w
        end
    end
  else (lastErr, w).

Definition Do {W} (rt : Runtime W) (cfg : Config)
    (operation : W -> option error * W) (w : W) : option error * W :=
  let cfg := withDefaults cfg in
  loop rt cfg operation (Z.to_nat (MaxAttempts cfg)) 1 (InitialDelay cfg) None w.

(** *** Observing the invocations

    The operation is made to write each of its results to a log carried
    next to the world; the runtime acts on the world as before. *)
Definition logged {W} (operation : W -> option error * W)
  : W * list (option error) -> option error * (W * list (option error)) :=
  fun '(w, log) => let '(r, w) := operation w in (r, (w, log ++ [r])).

Definition lift1 {W L A} (f : W -> A * W) : W * L -> A * (W * L) :=
  fun '(w, l) => let '(a, w) := f w in (a, (w, l)).

Definition with_log {W} (rt : Runtime W) : Runtime (W * list (option error)) :=
  mkRuntime _
    (lift1 (ctx_Done rt))
    (fun d => lift1 (sleep_or_Done rt d))
    (lift1 (rand_Float64 rt))
    (fun n => lift1 (rand_Intn rt n)).

(** The result of [Do] and the results of the invocations it made, in
    order. *)
Definition Do_log {W} (rt : Runtime W) (cfg : Config)
    (operation : W -> option error * W) (w : W)
  : option error * list (option error) :=
  let '(r, (_, log)) := Do (with_log rt) cfg (logged operation) (w, []) in
  (r, log).

(** The context is not cancelled, at the start or during a wait. *)
Definition never_cancelled {W} (rt : Runtime W) : Prop :=
  (forall w, (ctx_Done rt w).1 = None) /\
  (forall d w, (sleep_or_Done rt d w).1 = None).

(** Every invocation fails with an error classified retryable. *)
Definition always_fails_retryable {W} (cfg : Config)
    (operation : W -> option error * W) : Prop :=
  forall w, exists e,
    (operation w).1 = Some e /\ isRetryable e (RetryableErrors cfg) = true.

(** Every failure of the operation is classified retryable. *)
Definition fails_only_retryably {W} (cfg : Config)
    (operation : W -> option error * W) : Prop :=
  forall w e, (operation w).1 = Some e -> isRetryable e (RetryableErrors cfg) = true.

(** [Do] invoked the operation exactly [n] times and returned the error of
    the last of these invocations. *)
Definition exhausts_attempts {W} (rt : Runtime W) (cfg : Config)
    (operation : W -> option error * W) (w : W) (n : Z) : Prop :=
  let '(r, log) := Do_log rt cfg operation w in
  Z.of_nat (length log) = n /\ is_Some r /\ last log = Some r.

End WithErrors.

(** *** A concrete runtime

    Errors are their messages and [errors.Is] is equality; the world is
    the number of invocations made so far; the context is never
    cancelled; the random source draws [u] and [c]. *)
Definition quiet_runtime (u : float) (c : Z) : Runtime (error := string) nat :=
  mkRuntime nat
    (fun w => (None, w)) (fun _ w => (None, w))
    (fun w => (u, w)) (fun _ w => (c, w)).

Definition failing (msg : string) (w : nat) : option string * nat :=
  (Some msg, S w).


Section Further.

Context {error : Type} (errors_Is : error -> error -> bool).

(** A runtime acting on a world that carries one more cell, which it
    leaves alone. *)
Definition with_cell {W L} (rt : Runtime (error := error) W) : Runtime (W * L) :=
  mkRuntime _
    (lift1 (ctx_Done rt))
    (fun d => lift1 (sleep_or_Done rt d))
    (lift1 (rand_Float64 rt))
    (fun n => lift1 (rand_Intn rt n)).

(** [DoWithResult]: the closure handed to [Do] stores the value of each
    invocation in the variable [result], which starts as the zero value of
    [T]. *)
Definition result_closure {W T} (operation : W -> T * option error * W)
  : W * T -> option error * (W * T) :=
  fun '(w, _) => let '(v, err, w) := operation w in (err, (w, v)).

Definition DoWithResult {W T} (rt : Runtime W) (cfg : Config) (zero : T)
    (operation : W -> T * option error * W) (w : W) : T * option error * W :=
  let '(err, (w, result)) :=
    Do errors_Is (with_cell rt) cfg (result_closure operation) (w, zero) in
  (result, err, w).

(** The operation of [DoWithResult] with its value dropped. *)
Definition error_only {W T} (operation : W -> T * option error * W)
  : W -> option error * W :=
  fun w => let '(_, err, w) := operation w in (err, w).

(** An invocation that failed with an error classified retryable. *)
Definition retryable_failure (cfg : Config) (x : option error) : Prop :=
  exists e, x = Some e /\ isRetryable errors_Is e (RetryableErrors cfg) = true.

(** An error the context reported, at a poll or during a wait. *)
Definition ctx_error {W} (rt : Runtime W) (e : error) : Prop :=
  (exists w, (ctx_Done rt w).1 = Some e) \/
  (exists d w, (sleep_or_Done rt d w).1 = Some e).

(** The attempts [Do] makes at most: [cfg.MaxAttempts], or 3 when that is
    0. *)
Definition attempts (cfg : Config (error := error)) : Z :=
  MaxAttempts (withDefaults cfg).

(** How a run of the loop ends, given the invocations [ext] it added to
    the log and the passes [fuel] it had left: on a success; on the error of
    the last invocation, which was not retryable or came with the last
    pass; or on an error of the context, before the passes were used up. *)
Definition run_end {W} (rt : Runtime W) (cfg : Config) (fuel : nat)
    (r : option error) (ext : list (option error)) : Prop :=
  match r with
  | None => last ext = Some None
  | Some e =>
      (last ext = Some (Some e) /\
       (isRetryable errors_Is e (RetryableErrors cfg) = false \/ length ext = fuel)) \/
      (ctx_error rt e /\ (length ext < fuel)%nat /\
       Forall (retryable_failure cfg) ext)
  end.

End Further.

(** The world of a step with the added cell dropped. *)
Definition step_fst {error W L} (s : step (error := error) (W * L)) : step W :=
  match s with
  | Return r (w, _) => Return r w
  | Continue d lastErr (w, _) => Continue d lastErr w
  end.

(** Two more runtimes on the world of [quiet_runtime]: a context that is
    done from the start, and one that is done whenever [Do] waits. *)
Definition cancelled_runtime : Runtime (error := string) nat :=
  mkRuntime nat
    (fun w => (Some "context canceled", w)) (fun _ w => (Some "context canceled", w))
    (fun w => (0.5%float, w)) (fun _ w => (0, w)).

Definition deadline_runtime : Runtime (error := string) nat :=
  mkRuntime nat
    (fun w => (None, w)) (fun _ w => (Some "context deadline exceeded", w))
    (fun w => (0.5%float, w)) (fun _ w => (0, w)).

(** An operation with a result: it fails with "timeout" on its first two
    invocations and then succeeds, and its value is the number of the
    invocation. *)
Definition third_time (w : nat) : nat * option string * nat :=
  (S w, if (w <? 2)%nat then Some "timeout" else None, S w).

End Retry.

(** ** The storage clients: retries inside the breaker

    [executeWithRetry] of the graph client, and the same nesting in the
    LLM client: the breaker wraps one function, and that function is the
    whole of [retry.Do] on the operation.  The context handed to [Do]
    (the caller's, with the client's timeout) is the runtime's. *)

Module Client.

Import CircuitBreaker.

#[global] Instance error_eq_dec : EqDecision error.
Proof. solve_decision. Defined.

Section WithErrors.

Context (errors_Is : error -> error -> bool).

(** The closure handed to [Execute]: it returns what [Do] returns. *)
Definition retried {W : Type} (rt : Retry.Runtime W) (cfg : Retry.Config)
    (operation : W -> option error * W) (w : W) : outcome * W :=
  let '(r, w) := Retry.Do errors_Is rt cfg operation w in (Returned r, w).

Definition executeWithRetry {W : Type} (cb : CircuitBreaker)
    (rt : Retry.Runtime W) (cfg : Retry.Config)
    (operation : W -> option error * W) (t1 t2 : Time) (w : W)
  : outcome * CircuitBreaker * W :=
  Execute cb (retried rt cfg operation) t1 t2 w.

End WithErrors.

(** *** Concrete pieces

    [errors.Is] as equality; a context that is never cancelled, on the
    world that counts invocations; an operation that is always down, and
    one that is down twice and then answers. *)
Definition same_error (a b : error) : bool := bool_decide (a = b).

Definition quiet : Retry.Runtime (error := error) nat :=
  Retry.mkRuntime nat
    (fun w => (None, w)) (fun _ w => (None, w))
    (fun w => (0.5%float, w)) (fun _ w => (0, w)).

Definition down (w : nat) : option error * nat :=
  (Some (ErrOperation "down"), S w).

Definition flaky (w : nat) : option error * nat :=
  (if (w <? 2)%nat then Some (ErrOperation "down") else None, S w).

(** [default_breaker] one failure short of opening. *)
Definition strained : CircuitBreaker :=
  (Execute_all default_breaker (replicate 4 (failing_fn, 2000, 3000)) 0%nat).1.2.

End Client.

(** * Properties *)

(** ** Arithmetic helpers *)

Lemma wrap32_range x : 0 <= wrap32 x < 2 ^ 32.
Proof. unfold wrap32. apply Z.mod_pos_bound. lia. Qed.

Lemma wrap64_range x : 0 <= wrap64 x < 2 ^ 64.
Proof. unfold wrap64. apply Z.mod_pos_bound. lia. Qed.

Lemma int64_small x : min_int64 <= x <= max_int64 -> int64 x = x.
Proof.
  unfold int64, min_int64, max_int64. intros Hx.
  rewrite Z.mod_small; lia.
Qed.

Lemma Sub_range t u : min_int64 <= Sub t u <= max_int64.
Proof. unfold Sub, min_int64, max_int64. lia. Qed.

Lemma quot_int64_range a r :
  min_int64 <= a <= max_int64 -> 0 < r ->
  min_int64 <= a ÷ r <= max_int64 /\ a ÷ r <= max_int64 ÷ r.
Proof.
  intros Ha Hr. split.
  - unfold min_int64, max_int64 in *.
    Z.to_euclidean_division_equations. nia.
  - apply Z.quot_le_mono; lia.
Qed.

(** ** Circuit breaker *)

Section BreakerProperties.

Import CircuitBreaker.

Lemma currentState_result cb now :
  currentState cb now =
    (state (currentState cb now).2, generation (currentState cb now).2,
     (currentState cb now).2).
Proof. reflexivity. Qed.

Lemma currentState_not_due cb now :
  transition_due cb now = false -> (currentState cb now).2 = cb.
Proof.
  unfold transition_due, currentState. simpl.
  destruct (state cb); intros H; try rewrite H; reflexivity.
Qed.

Lemma toNewGeneration_fields cb now :
  let cb' := toNewGeneration cb now in
  state cb' = state cb /\
  generation cb' = wrap64 (generation cb + 1) /\
  cb_counts cb' = zero_counts /\
  maxRequests cb' = maxRequests cb /\
  failureThreshold cb' = failureThreshold cb /\
  successThreshold cb' = successThreshold cb /\
  expiry cb' =
    match state cb with
    | StateClosed => if interval cb =? 0 then zeroTime else Add now (interval cb)
    | StateOpen => Add now (timeout cb)
    | StateHalfOpen => zeroTime
    end.
Proof.
  destruct cb as [nm mr iv tm ft st cbk s g c e ns].
  unfold toNewGeneration. simpl.
  destruct s; simpl; [destruct (iv =? 0) | |]; simpl;
    repeat split; reflexivity.
Qed.

(** A real change of state starts a new generation in the new state. *)
Lemma setState_fields cb s now :
  state cb <> s ->
  let cb' := setState cb s now in
  state cb' = s /\
  generation cb' = wrap64 (generation cb + 1) /\
  cb_counts cb' = zero_counts /\
  maxRequests cb' = maxRequests cb /\
  expiry cb' =
    match s with
    | StateClosed => if interval cb =? 0 then zeroTime else Add now (interval cb)
    | StateOpen => Add now (timeout cb)
    | StateHalfOpen => zeroTime
    end.
Proof.
  intros Hne. unfold setState.
  rewrite bool_decide_eq_false_2 by exact Hne.
  pose proof (toNewGeneration_fields (set_state cb s) now) as H.
  simpl in H. destruct H as (Hs & Hg & Hc & Hm & _ & _ & He).
  cbv zeta.
  destruct (onStateChange (toNewGeneration (set_state cb s) now)); simpl;
    repeat split; assumption.
Qed.

(** [NewCircuitBreaker] never leaves the probe limit at zero. *)
Lemma NewCircuitBreaker_maxRequests nm cfg now :
  0 <= MaxRequests cfg -> 0 < maxRequests (NewCircuitBreaker nm cfg now).
Proof.
  intros Hcfg. unfold NewCircuitBreaker.
  destruct (toNewGeneration_fields
              (mkBreaker nm (if MaxRequests cfg =? 0 then 1 else MaxRequests cfg)
                 (if Interval cfg =? 0 then 0 else Interval cfg)
                 (if Timeout cfg =? 0 then 60 * 1000000000 else Timeout cfg)
                 (if FailureThreshold cfg =? 0 then 5 else FailureThreshold cfg)
                 (if SuccessThreshold cfg =? 0 then 2 else SuccessThreshold cfg)
                 (OnStateChange cfg) StateClosed 0 zero_counts zeroTime []) now)
    as (_ & _ & _ & Hm & _).
  rewrite Hm. simpl.
  destruct (Z.eqb_spec (MaxRequests cfg) 0); lia.
Qed.

Example tripped_is_open :
  state tripped = StateOpen /\ generation tripped = 2 /\
  expiry tripped = 60000002000.
Proof. vm_compute. auto. Qed.

(** *** Generation isolation (C2) *)

(** C2, as stated, does not hold: a completion that arrives with a stale
    generation can still change the breaker, because [afterRequest] first
    takes the lazy transition that is due.  Call A of [tripped] completes
    just after the open timeout: the breaker goes from Open, generation 2,
    to HalfOpen, generation 3, with the expiry cleared. *)
Lemma stale_completion_can_move_breaker :
  ~ (forall cb before success now,
        generation cb <> before ->
        (currentState cb now).1.2 <> before ->
        afterRequest cb before success now = cb).
Proof.
  intros H.
  specialize (H tripped 1 true 60000002001).
  assert (Hs : state (afterRequest tripped 1 true 60000002001) = state tripped).
  { rewrite H; [reflexivity | vm_compute; discriminate | vm_compute; discriminate]. }
  vm_compute in Hs. discriminate Hs.
Qed.

(** C2 (amended): when the generation resolved at completion time differs
    from the generation recorded at admission, [afterRequest] discards the
    outcome: it leaves the breaker exactly as the lazy resolution
    [currentState] at that time leaves it, and so entirely unchanged (state,
    generation, the five counters, expiry) whenever no lazy transition is
    due. *)
Theorem afterRequest_stale_generation cb before success now :
  (currentState cb now).1.2 <> before ->
  afterRequest cb before success now = (currentState cb now).2 /\
  (transition_due cb now = false ->
   afterRequest cb before success now = cb).
Proof.
  intros Hgen.
  assert (Hdiscard : afterRequest cb before success now = (currentState cb now).2).
  { unfold afterRequest.
    rewrite (currentState_result cb now) in *. simpl in *.
    rewrite bool_decide_eq_false_2 by exact Hgen. reflexivity. }
  split; [exact Hdiscard |].
  intros Hdue. rewrite Hdiscard. apply currentState_not_due, Hdue.
Qed.

Lemma afterRequest_stale_generation_witness :
  let probing := (currentState tripped 60000002001).2 in
  afterRequest probing 1 true 60000002005 = probing.
Proof.
  refine (proj2 (afterRequest_stale_generation
           (currentState tripped 60000002001).2 1 true 60000002005 _) _).
  - vm_compute. discriminate.
  - vm_compute. reflexivity.
Defined.

(** *** The lazy Open to HalfOpen transition (C3) *)

(** C3, as stated, does not hold at the boundary: the code compares with
    [expiry.Before(now)], so a call arriving exactly at [now = expiry]
    finds the breaker still Open (and is rejected). *)
Lemma open_at_expiry_stays_open :
  ~ (forall cb now,
        state cb = StateOpen -> expiry cb <= now ->
        (currentState cb now).1.1 = StateHalfOpen).
Proof.
  intros H.
  specialize (H tripped 60000002000).
  vm_compute in H.
  assert (Hc : StateOpen = StateHalfOpen).
  { apply H; [reflexivity | discriminate]. }
  discriminate Hc.
Qed.

(** C3 (amended): for a breaker in state Open, a call arriving at a time
    [now] strictly after the expiry moves it to HalfOpen in a fresh
    generation with zeroed counters, and that call is admitted (the
    probe limit is at least 1); a call arriving at [now <= expiry], the
    instant [now = expiry] included, leaves the breaker Open and unchanged
    and is rejected with [ErrCircuitOpen]. *)
Theorem open_to_halfopen_after_expiry cb now :
  state cb = StateOpen ->
  0 < maxRequests cb ->
  (expiry cb < now ->
     let '(st, gen, cb') := currentState cb now in
     st = StateHalfOpen /\ gen = wrap64 (generation cb + 1) /\
     cb_counts cb' = zero_counts /\ expiry cb' = zeroTime /\
     (beforeRequest cb now).1 = (gen, None)) /\
  (now <= expiry cb ->
     currentState cb now = (StateOpen, generation cb, cb) /\
     beforeRequest cb now = (generation cb, Some ErrCircuitOpen, cb)).
Proof.
  intros Hopen Hmax. split.
  - intros Hlt.
    assert (Hcur : (currentState cb now).2 = setState cb StateHalfOpen now).
    { unfold currentState. simpl. rewrite Hopen.
      unfold Before. rewrite (proj2 (Z.ltb_lt _ _) Hlt). reflexivity. }
    assert (Hne : state cb <> StateHalfOpen) by (rewrite Hopen; discriminate).
    destruct (setState_fields cb StateHalfOpen now Hne) as (Hs & Hg & Hc & Hm & He).
    unfold beforeRequest.
    rewrite (currentState_result cb now). rewrite Hcur.
    rewrite Hs, Hg, Hc, He.
    rewrite bool_decide_eq_false_2 by discriminate.
    rewrite bool_decide_eq_true_2 by reflexivity.
    rewrite Hm. simpl.
    replace (0 >=? maxRequests cb) with false by (symmetry; lia).
    repeat split; reflexivity.
  - intros Hle.
    assert (Hcur : currentState cb now = (StateOpen, generation cb, cb)).
    { unfold currentState. simpl. rewrite Hopen.
      unfold Before. rewrite (proj2 (Z.ltb_ge _ _) Hle). simpl.
      rewrite Hopen. reflexivity. }
    split; [exact Hcur |].
    unfold beforeRequest. rewrite Hcur.
    rewrite bool_decide_eq_true_2 by reflexivity. reflexivity.
Qed.

Lemma open_to_halfopen_after_expiry_witness :
  (currentState tripped 60000002001).1.1 = StateHalfOpen /\
  (beforeRequest tripped 60000002001).1.2 = None /\
  (beforeRequest tripped 60000002000).1.2 = Some ErrCircuitOpen.
Proof.
  destruct (open_to_halfopen_after_expiry tripped 60000002001) as [Hafter _];
    [vm_compute; reflexivity | vm_compute; reflexivity |].
  destruct (open_to_halfopen_after_expiry tripped 60000002000) as [_ Hat];
    [vm_compute; reflexivity | vm_compute; reflexivity |].
  specialize (Hafter ltac:(vm_compute; reflexivity)).
  specialize (Hat ltac:(vm_compute; discriminate)).
  destruct (currentState tripped 60000002001) as [[st gen] cb'].
  destruct Hafter as (Hst & _ & _ & _ & Hadm).
  destruct Hat as [_ Hrej].
  split; [exact Hst |]. split; [rewrite Hadm; reflexivity |].
  rewrite Hrej. reflexivity.
Defined.

(** *** Admission (C4) *)

Lemma Execute_runs_fn {W} cb (fn : W -> outcome * W) t1 t2 w gen cb1 :
  beforeRequest cb t1 = (gen, None, cb1) ->
  Execute cb fn t1 t2 w =
    (let '(o, w') := fn w in (o, afterRequest cb1 gen (succeeded o) t2, w')).
Proof.
  intros Hb. unfold Execute. rewrite Hb.
  destruct (fn w) as [[[e|]|r] w']; reflexivity.
Qed.

(** C4: with [st] the state resolved at admission time, [Execute] returns
    [ErrCircuitOpen] when [st] is Open and [ErrTooManyRequests] when [st] is
    HalfOpen and the request count has reached [maxRequests]; in both
    cases the world comes back as it was whatever [fn] is, so [fn] was
    not invoked.  When [st] is Closed the call is admitted: [fn] runs and
    its outcome is what [Execute] returns.  The two sentinels are distinct
    errors. *)
Theorem Execute_admission {W} cb (fn : W -> outcome * W) t1 t2 w :
  let '(st, gen, cb1) := currentState cb t1 in
  (st = StateOpen ->
     Execute cb fn t1 t2 w = (Returned (Some ErrCircuitOpen), cb1, w)) /\
  (st = StateHalfOpen -> maxRequests cb1 <= Requests (cb_counts cb1) ->
     Execute cb fn t1 t2 w = (Returned (Some ErrTooManyRequests), cb1, w)) /\
  (st = StateClosed ->
     beforeRequest cb t1 = (gen, None, admission cb1) /\
     Execute cb fn t1 t2 w =
       (let '(o, w') := fn w in
        (o, afterRequest (admission cb1) gen (succeeded o) t2, w'))) /\
  ErrCircuitOpen <> ErrTooManyRequests.
Proof.
  destruct (currentState cb t1) as [[st gen] cb1] eqn:Hcur.
  assert (Hadm : st = StateClosed -> beforeRequest cb t1 = (gen, None, admission cb1)).
  { intros ->. unfold beforeRequest. rewrite Hcur.
    rewrite !bool_decide_eq_false_2 by discriminate. reflexivity. }
  split; [| split; [| split]].
  - intros ->. unfold Execute, beforeRequest. rewrite Hcur.
    rewrite bool_decide_eq_true_2 by reflexivity. reflexivity.
  - intros -> Hfull. unfold Execute, beforeRequest. rewrite Hcur.
    rewrite bool_decide_eq_false_2 by discriminate.
    rewrite bool_decide_eq_true_2 by reflexivity.
    replace (Requests (cb_counts cb1) >=? maxRequests cb1) with true
      by (symmetry; lia).
    reflexivity.
  - intros Hst. split; [exact (Hadm Hst) |].
    apply Execute_runs_fn, Hadm, Hst.
  - discriminate.
Qed.

Lemma Execute_admission_witness :
  (* Open: rejected, zero invocations *)
  (Execute tripped counting_fn 3000 4000 0%nat).1.1 = Returned (Some ErrCircuitOpen) /\
  (Execute tripped counting_fn 3000 4000 0%nat).2 = 0%nat /\
  (* HalfOpen with the single probe slot taken: rejected, zero invocations *)
  (let probing := (beforeRequest tripped 60000002001).2 in
   (Execute probing counting_fn 60000002002 60000002003 0%nat).1.1
     = Returned (Some ErrTooManyRequests) /\
   (Execute probing counting_fn 60000002002 60000002003 0%nat).2 = 0%nat) /\
  (* Closed: admitted, one invocation *)
  (let fresh := NewCircuitBreaker "llm" demo_config 1000 in
   (Execute fresh counting_fn 1000 1001 0%nat).1.1 = Returned None /\
   (Execute fresh counting_fn 1000 1001 0%nat).2 = 1%nat).
Proof.
  pose proof (Execute_admission tripped counting_fn 3000 4000 0%nat) as Hopen.
  pose proof (Execute_admission (beforeRequest tripped 60000002001).2
                counting_fn 60000002002 60000002003 0%nat) as Hhalf.
  pose proof (Execute_admission (NewCircuitBreaker "llm" demo_config 1000)
                counting_fn 1000 1001 0%nat) as Hclosed.
  destruct (currentState tripped 3000) as [[st1 g1] c1] eqn:E1.
  destruct (currentState (beforeRequest tripped 60000002001).2 60000002002)
    as [[st2 g2] c2] eqn:E2.
  destruct (currentState (NewCircuitBreaker "llm" demo_config 1000) 1000)
    as [[st3 g3] c3] eqn:E3.
  vm_compute in E1; injection E1 as <- <- <-.
  vm_compute in E2; injection E2 as <- <- <-.
  vm_compute in E3; injection E3 as <- <- <-.
  destruct Hopen as (Hopen & _).
  destruct Hhalf as (_ & Hhalf & _).
  destruct Hclosed as (_ & _ & Hclosed & _).
  rewrite (Hopen eq_refl).
  cbv zeta.
  rewrite (Hhalf eq_refl ltac:(vm_compute; discriminate)).
  rewrite (proj2 (Hclosed eq_refl)).
  repeat split; reflexivity.
Defined.

(** *** Transitions on completion (C5) *)

Lemma afterRequest_current cb success now :
  transition_due cb now = false ->
  afterRequest cb (generation cb) success now =
    if success then onSuccess cb (state cb) now else onFailure cb (state cb) now.
Proof.
  intros Hdue. unfold afterRequest.
  rewrite (currentState_result cb now), (currentState_not_due cb now Hdue).
  rewrite bool_decide_eq_true_2 by reflexivity. reflexivity.
Qed.

(** C5: with [cf] and [cs] the consecutive counts after the completion
    is recorded, a failure in Closed leads to Open exactly when
    [cf >= failureThreshold]; a failure in HalfOpen always leads to Open; a
    success in HalfOpen leads to Closed exactly when
    [cs >= successThreshold]; and each of these transitions zeroes the
    counters and increments the generation. *)
Theorem completion_transitions cb now :
  let cf := wrap32 (ConsecutiveFailures (cb_counts cb) + 1) in
  let cs := wrap32 (ConsecutiveSuccesses (cb_counts cb) + 1) in
  (state cb = StateClosed ->
     let cb' := onFailure cb (state cb) now in
     (state cb' = StateOpen <-> failureThreshold cb <= cf) /\
     (state cb' = StateOpen -> fresh_generation cb cb') /\
     (state cb' <> StateOpen ->
        state cb' = StateClosed /\ generation cb' = generation cb /\
        ConsecutiveFailures (cb_counts cb') = cf)) /\
  (state cb = StateHalfOpen ->
     let cb' := onFailure cb (state cb) now in
     state cb' = StateOpen /\ fresh_generation cb cb') /\
  (state cb = StateHalfOpen ->
     let cb' := onSuccess cb (state cb) now in
     (state cb' = StateClosed <-> successThreshold cb <= cs) /\
     (state cb' = StateClosed -> fresh_generation cb cb') /\
     (state cb' <> StateClosed ->
        state cb' = StateHalfOpen /\ generation cb' = generation cb /\
        ConsecutiveSuccesses (cb_counts cb') = cs)).
Proof.
  destruct cb as [nm mr iv tm ft st cbk s g c e ns].
  unfold fresh_generation. cbn -[wrap32 wrap64 Z.add].
  split; [| split]; intros ->.
  - unfold onFailure, setState. cbn -[wrap32 wrap64 Z.add].
    destruct (Z.geb_spec (wrap32 (ConsecutiveFailures c + 1)) ft) as [Hge | Hlt];
      cbn -[wrap32 wrap64 Z.add].
    + destruct cbk; cbn -[wrap32 wrap64 Z.add];
        (split; [split; [intros _; lia | reflexivity] |]);
        (split; [auto | intros Hne; exfalso; apply Hne; reflexivity]).
    + split; [split; [discriminate | lia] |].
      split; [discriminate | auto].
  - unfold onFailure, setState. cbn -[wrap32 wrap64 Z.add].
    destruct cbk; cbn -[wrap32 wrap64 Z.add]; auto.
  - unfold onSuccess, setState. cbn -[wrap32 wrap64 Z.add].
    destruct (Z.geb_spec (wrap32 (ConsecutiveSuccesses c + 1)) st) as [Hge | Hlt];
      cbn -[wrap32 wrap64 Z.add].
    + destruct (iv =? 0); destruct cbk; cbn -[wrap32 wrap64 Z.add];
        (split; [split; [intros _; lia | reflexivity] |]);
        (split; [auto | intros Hne; exfalso; apply Hne; reflexivity]).
    + split; [split; [discriminate | lia] |].
      split; [discriminate | auto].
Qed.

Lemma completion_transitions_witness :
  let inflight := (beforeRequest (NewCircuitBreaker "llm" demo_config 1000) 1000).2 in
  let probing := (beforeRequest tripped 60000002001).2 in
  state (onFailure inflight (state inflight) 2000) = StateOpen /\
  state (onFailure probing (state probing) 60000002002) = StateOpen /\
  state (onSuccess probing (state probing) 60000002002) = StateHalfOpen.
Proof.
  intros inflight probing.
  destruct (completion_transitions inflight 2000) as (Hclosed & _ & _).
  destruct (completion_transitions probing 60000002002) as (_ & Hfail & Hsucc).
  specialize (Hclosed ltac:(vm_compute; reflexivity)).
  specialize (Hfail ltac:(vm_compute; reflexivity)).
  specialize (Hsucc ltac:(vm_compute; reflexivity)).
  cbv zeta in Hclosed, Hfail, Hsucc.
  destruct Hclosed as (Htrip & _ & _).
  destruct Hfail as (Hreopen & _).
  destruct Hsucc as (Hclose & _ & Hstay).
  split; [apply Htrip; vm_compute; discriminate |].
  split; [exact Hreopen |].
  apply Hstay. intros Hc. apply Hclose in Hc. vm_compute in Hc. apply Hc. reflexivity.
Defined.

End BreakerProperties.

(** ** Rate limiter *)

Section LimiterProperties.

Import RateLimit.

Implicit Types (rl : RateLimiter) (b : bucket) (key : string).

Lemma getBucket_config rl key t0 :
  let rl1 := (getBucket rl key t0).2 in
  maxTokens rl1 = maxTokens rl /\ refillRate rl1 = refillRate rl /\
  tokensPerReq rl1 = tokensPerReq rl.
Proof. unfold getBucket. destruct (buckets rl !! key); simpl; auto. Qed.

Lemma getBucket_lookup rl key t0 :
  buckets (getBucket rl key t0).2 !! key = Some (getBucket rl key t0).1.
Proof.
  unfold getBucket. destruct (buckets rl !! key) eqn:E; simpl.
  - exact E.
  - apply lookup_insert_eq.
Qed.

Lemma allow_config rl key t0 now :
  let rl1 := (allow rl key t0 now).2 in
  maxTokens rl1 = maxTokens rl /\ refillRate rl1 = refillRate rl /\
  tokensPerReq rl1 = tokensPerReq rl.
Proof.
  unfold allow.
  pose proof (getBucket_config rl key t0) as Hg.
  destruct (getBucket rl key t0) as [b rl1]. simpl in Hg.
  destruct (tokensToAdd rl1 b now) as [toAdd |]; simpl; [| exact Hg].
  destruct (consume rl1 (refill rl1 b toAdd now)) as [ok b']. simpl. exact Hg.
Qed.

(** *** Fractional progress is kept (C8) *)

Lemma refill_none rl b toAdd now : toAdd <= 0 -> refill rl b toAdd now = b.
Proof.
  intros H. unfold refill.
  replace (toAdd >? 0) with false by (symmetry; lia). reflexivity.
Qed.

Lemma consume_lastRefill rl b : lastRefill (consume rl b).2 = lastRefill b.
Proof. unfold consume. destruct (tokens b >=? tokensPerReq rl); reflexivity. Qed.

(** C8: when the [tokensToAdd] computed by a call of [allow] is zero, the
    call returns normally and the bucket of [key] keeps its [lastRefill]
    (for a key seen for the first time: the creation time of the new
    bucket); only its token count may differ. *)
Theorem allow_keeps_lastRefill rl key t0 now :
  let b := (getBucket rl key t0).1 in
  tokensToAdd rl b now = Some 0 ->
  exists ok b',
    (allow rl key t0 now).1 = Some ok /\
    buckets (allow rl key t0 now).2 !! key = Some b' /\
    lastRefill b' = lastRefill b.
Proof.
  intros b Hzero. unfold allow. subst b.
  pose proof (getBucket_config rl key t0) as (_ & Hr & _).
  destruct (getBucket rl key t0) as [b rl1]. simpl in *.
  assert (Hz1 : tokensToAdd rl1 b now = Some 0).
  { unfold tokensToAdd in *. rewrite Hr. exact Hzero. }
  rewrite Hz1. rewrite refill_none by lia.
  pose proof (consume_lastRefill rl1 b) as Hl.
  destruct (consume rl1 b) as [ok b']. simpl in *.
  exists ok, b'. split; [reflexivity |]. split; [| exact Hl].
  apply lookup_insert_eq.
Qed.

Lemma allow_keeps_lastRefill_witness :
  exists ok b',
    (allow alice_seen "alice" 5600000000 5600000000).1 = Some ok /\
    buckets (allow alice_seen "alice" 5600000000 5600000000).2 !! "alice" = Some b' /\
    lastRefill b' = 5000000000.
Proof.
  apply (allow_keeps_lastRefill alice_seen "alice" 5600000000 5600000000).
  vm_compute. reflexivity.
Defined.

(** *** Token bounds (C9) *)

Lemma New_well_configured cfg :
  let m := if MaxRequestsPerMinute cfg =? 0 then 60 else MaxRequestsPerMinute cfg in
  let w := if WindowDuration cfg =? 0 then minute else WindowDuration cfg in
  0 < m <= 2 ^ 62 -> 2 * m <= w <= max_int64 ->
  well_configured (New cfg) /\ buckets_ok (New cfg).
Proof.
  intros m w Hm Hw. unfold well_configured, buckets_ok, New. simpl.
  fold m w.
  assert (Hq : 2 <= w ÷ m <= max_int64).
  { unfold max_int64 in *. Z.to_euclidean_division_equations. nia. }
  rewrite int64_small by (unfold min_int64; lia).
  split; [| apply map_Forall_empty].
  repeat split; try lia.
  assert (max_int64 ÷ (w ÷ m) <= max_int64 ÷ 2).
  { apply Z.quot_le_compat_l; unfold max_int64; lia. }
  assert (max_int64 ÷ 2 = 2 ^ 62 - 1) by reflexivity.
  unfold max_int64 in *. lia.
Qed.

Lemma refill_ok rl b toAdd now :
  well_configured rl -> bucket_ok rl b ->
  tokensToAdd rl b now = Some toAdd ->
  bucket_ok rl (refill rl b toAdd now).
Proof.
  intros (Hcap & Hrate & _ & Hroom) Hb Hadd.
  unfold tokensToAdd in Hadd.
  destruct (refillRate rl =? 0); [discriminate |].
  injection Hadd as <-.
  destruct (quot_int64_range (Sub now (lastRefill b)) (refillRate rl)
              (Sub_range _ _) Hrate) as [Hq Hle].
  rewrite int64_small by exact Hq.
  unfold refill, bucket_ok in *.
  destruct (Z.gtb_spec (Sub now (lastRefill b) ÷ refillRate rl) 0) as [Hpos | Hnpos];
    [| exact Hb].
  simpl. rewrite int64_small by (unfold min_int64; lia).
  unfold min. destruct (Z.ltb_spec (maxTokens rl)
    (tokens b + Sub now (lastRefill b) ÷ refillRate rl)); lia.
Qed.

(** A token is taken only from a bucket that holds one. *)
Lemma consume_ok rl b :
  well_configured rl -> bucket_ok rl b ->
  bucket_ok rl (consume rl b).2 /\
  ((consume rl b).1 = true <-> 1 <= tokens b) /\
  tokens (consume rl b).2 = if (consume rl b).1 then tokens b - 1 else tokens b.
Proof.
  intros (Hcap & Hrate & Hone & Hroom) Hb. unfold consume, bucket_ok in *.
  assert (0 <= max_int64 ÷ refillRate rl)
    by (apply Z.quot_pos; unfold max_int64; lia).
  rewrite Hone.
  destruct (Z.geb_spec (tokens b) 1) as [Hge | Hlt]; simpl.
  - rewrite int64_small by (unfold min_int64, max_int64 in *; lia).
    repeat split; try lia; reflexivity.
  - repeat split; try lia; try discriminate.
Qed.

Lemma well_configured_ext rl rl' :
  maxTokens rl' = maxTokens rl /\ refillRate rl' = refillRate rl /\
  tokensPerReq rl' = tokensPerReq rl ->
  well_configured rl -> well_configured rl'.
Proof. unfold well_configured. intros (-> & -> & ->). auto. Qed.

Lemma allow_ok rl key t0 now :
  well_configured rl -> buckets_ok rl ->
  well_configured (allow rl key t0 now).2 /\ buckets_ok (allow rl key t0 now).2 /\
  (allow rl key t0 now).1 <> None.
Proof.
  intros Hwf Hinv.
  split; [eapply well_configured_ext; [apply allow_config | exact Hwf] |].
  unfold allow.
  assert (Hg : well_configured (getBucket rl key t0).2 /\
               buckets_ok (getBucket rl key t0).2 /\
               bucket_ok (getBucket rl key t0).2 (getBucket rl key t0).1).
  { unfold getBucket. destruct (buckets rl !! key) as [b |] eqn:E; simpl.
    - split; [exact Hwf |]. split; [exact Hinv |]. exact (Hinv key b E).
    - assert (Hnew : bucket_ok rl (mkBucket (maxTokens rl) t0)).
      { unfold bucket_ok. simpl. destruct Hwf. lia. }
      split; [exact Hwf |]. split; [| exact Hnew].
      unfold buckets_ok. simpl. apply map_Forall_insert_2; assumption. }
  destruct (getBucket rl key t0) as [b rl1]. simpl in Hg.
  destruct Hg as (Hwf1 & Hinv1 & Hb).
  destruct (tokensToAdd rl1 b now) as [toAdd |] eqn:Hadd.
  - pose proof (refill_ok rl1 b toAdd now Hwf1 Hb Hadd) as Hr.
    pose proof (consume_ok rl1 _ Hwf1 Hr) as (Hc & _).
    destruct (consume rl1 (refill rl1 b toAdd now)) as [ok b']. simpl in *.
    split; [| discriminate].
    unfold buckets_ok. simpl. apply map_Forall_insert_2; assumption.
  - exfalso. unfold tokensToAdd in Hadd.
    destruct Hwf1 as (_ & Hrate & _).
    destruct (Z.eqb_spec (refillRate rl1) 0); [lia | discriminate].
Qed.

(** C9: in every run of [allow] calls on a well configured limiter whose
    buckets hold between 0 and [maxTokens] tokens, every bucket holds
    between 0 and [maxTokens] tokens before and after each call. *)
Theorem allow_keeps_token_bounds rl (calls : list (string * Time * Time)) :
  well_configured rl -> buckets_ok rl ->
  Forall buckets_ok (run rl calls).
Proof.
  revert rl. induction calls as [| [[key t0] now] rest IH]; intros rl Hwf Hinv.
  - simpl. constructor; [exact Hinv | constructor].
  - simpl. constructor; [exact Hinv |].
    destruct (allow_ok rl key t0 now Hwf Hinv) as (Hwf' & Hinv' & _).
    apply IH; assumption.
Qed.

Lemma allow_keeps_token_bounds_witness :
  Forall buckets_ok (run default_limiter burst).
Proof.
  apply allow_keeps_token_bounds.
  - apply (New_well_configured (mkConfig 0 0));
      vm_compute; split; first [reflexivity | discriminate].
  - apply (New_well_configured (mkConfig 0 0));
      vm_compute; split; first [reflexivity | discriminate].
Defined.

(** The sweep only removes buckets. *)
Lemma cleanup_ok rl now : buckets_ok rl -> buckets_ok (cleanup rl now).
Proof.
  unfold buckets_ok, cleanup. simpl. intros Hinv key b Hb.
  apply map_lookup_filter_Some in Hb as [Hb _].
  exact (Hinv key b Hb).
Qed.

(** The sixty-first request of the burst is denied; one second later a
    request is allowed again. *)
Example burst_last_denied :
  let full := default (default_limiter) (last (run default_limiter (take 60 burst))) in
  (allow full "alice" 5000000000 5000000000).1 = Some false /\
  (allow full "alice" 6000000000 6000000000).1 = Some true.
Proof. vm_compute. auto. Qed.

End LimiterProperties.

(** ** Retry executor *)

Section RetryProperties.

Import Retry.

Context {error : Type} (errors_Is : error -> error -> bool).

#[local] Abbreviation isRetryable := (isRetryable errors_Is).
#[local] Abbreviation iteration := (iteration errors_Is).
#[local] Abbreviation loop := (loop errors_Is).
#[local] Abbreviation Do := (Do errors_Is).
#[local] Abbreviation Do_log := (Do_log errors_Is).
#[local] Abbreviation always_fails_retryable := (always_fails_retryable errors_Is).
#[local] Abbreviation fails_only_retryably := (fails_only_retryably errors_Is).
#[local] Abbreviation exhausts_attempts := (exhausts_attempts errors_Is).

Implicit Types (cfg : Config (error := error)) (e : error).

(** *** Classification *)

Lemma isRetryable_nil e : isRetryable e [] = true.
Proof. reflexivity. Qed.

Lemma isRetryable_false e (l : list error) :
  l <> [] -> Forall (fun t => errors_Is e t = false) l ->
  isRetryable e l = false.
Proof.
  intros Hne Hall. destruct l as [| t l]; [congruence |].
  unfold Retry.isRetryable.
  induction Hall as [| t' l' Ht _ IH]; [reflexivity |].
  simpl. rewrite Ht. simpl.
  destruct l' as [| t'' l'']; [reflexivity |].
  apply IH. discriminate.
Qed.

(** *** The loop *)

Lemma loop_S {W} (rt : Runtime W) cfg op fuel attempt delay lastErr w :
  loop rt cfg op (S fuel) attempt delay lastErr w =
    if attempt <=? MaxAttempts cfg then
      match iteration rt cfg op attempt delay w with
      | Return r w => (r, w)
      | Continue delay lastErr w => loop rt cfg op fuel (attempt + 1) delay lastErr w
      end
    else (lastErr, w).
Proof. reflexivity. Qed.

Lemma loop_O {W} (rt : Runtime W) cfg op attempt delay lastErr w :
  loop rt cfg op 0 attempt delay lastErr w = (lastErr, w).
Proof. simpl. destruct (attempt <=? MaxAttempts cfg); reflexivity. Qed.

Lemma loop_exit {W} (rt : Runtime W) cfg op fuel attempt delay lastErr w :
  MaxAttempts cfg < attempt ->
  loop rt cfg op fuel attempt delay lastErr w = (lastErr, w).
Proof.
  intros Hgt. destruct fuel; simpl;
    replace (attempt <=? MaxAttempts cfg) with false by (symmetry; lia);
    reflexivity.
Qed.

(** A pass that continues was not the last one. *)
Lemma iteration_continue {W} (rt : Runtime W) cfg op attempt delay w d' last' w' :
  iteration rt cfg op attempt delay w = Continue d' last' w' ->
  attempt <> MaxAttempts cfg.
Proof.
  unfold Retry.iteration.
  destruct (ctx_Done rt w) as [[c |] w1]; [discriminate |].
  destruct (op w1) as [[err |] w2]; [| discriminate].
  destruct (negb _); [discriminate |].
  destruct (Z.eqb_spec attempt (MaxAttempts cfg)); [discriminate | auto].
Qed.

(** The fuel [Do] supplies is never the reason the loop stops: with at
    least as many units as passes remain, one more changes nothing. *)
Lemma loop_fuel {W} (rt : Runtime W) cfg op fuel :
  forall attempt delay lastErr w,
    MaxAttempts cfg - attempt + 1 <= Z.of_nat fuel ->
    loop rt cfg op (S fuel) attempt delay lastErr w =
    loop rt cfg op fuel attempt delay lastErr w.
Proof.
  induction fuel as [| fuel IH]; intros attempt delay lastErr w Hfuel.
  - rewrite !loop_exit by lia. reflexivity.
  - rewrite (loop_S rt cfg op (S fuel)), (loop_S rt cfg op fuel).
    destruct (attempt <=? MaxAttempts cfg); [| reflexivity].
    destruct (iteration rt cfg op attempt delay w) as [r w' | d' last' w'];
      [reflexivity |].
    apply IH. lia.
Qed.

(** *** The loop with its invocations logged *)

Lemma addJitter_with_log {W} (rt : Runtime W) d jf w (log : list (option error)) :
  addJitter (with_log rt) d jf (w, log) =
    ((addJitter rt d jf w).1, ((addJitter rt d jf w).2, log)).
Proof.
  unfold addJitter. destruct (PrimFloat.leb jf 0); [reflexivity |].
  simpl. destruct (rand_Float64 rt w) as [u w1]. simpl.
  destruct (rand_Intn rt 2 w1) as [c w2].
  destruct (c =? 0); reflexivity.
Qed.

Lemma iteration_logged {W} (rt : Runtime W) cfg op attempt delay w log :
  iteration (with_log rt) cfg (logged op) attempt delay (w, log) =
    match ctx_Done rt w with
    | (Some ctxErr, w1) => Return (Some ctxErr) (w1, log)
    | (None, w1) =>
        match op w1 with
        | (None, w2) => Return None (w2, log ++ [None])
        | (Some err, w2) =>
            if negb (isRetryable err (RetryableErrors cfg))
            then Return (Some err) (w2, log ++ [Some err])
            else if attempt =? MaxAttempts cfg
            then Return (Some err) (w2, log ++ [Some err])
            else
              let j := addJitter rt delay (JitterFraction cfg) w2 in
              match sleep_or_Done rt j.1 j.2 with
              | (Some ctxErr, w4) => Return (Some ctxErr) (w4, log ++ [Some err])
              | (None, w4) =>
                  Continue (nextDelay cfg delay) (Some err) (w4, log ++ [Some err])
              end
        end
    end.
Proof.
  unfold Retry.iteration. simpl.
  destruct (ctx_Done rt w) as [[c |] w1]; [reflexivity |]. simpl.
  destruct (op w1) as [[err |] w2]; [| reflexivity].
  destruct (negb _); [reflexivity |].
  destruct (attempt =? MaxAttempts cfg); [reflexivity |].
  rewrite addJitter_with_log. simpl.
  destruct (sleep_or_Done rt _ _) as [[c |] w4]; reflexivity.
Qed.

(** The log only grows. *)
Lemma loop_log_extends {W} (rt : Runtime W) cfg op fuel :
  forall attempt delay lastErr w log,
  exists ext,
    (loop (with_log rt) cfg (logged op) fuel attempt delay lastErr (w, log)).2.2
    = log ++ ext.
Proof.
  induction fuel as [| fuel IH]; intros attempt delay lastErr w log.
  - exists []. rewrite app_nil_r.
    simpl. destruct (attempt <=? MaxAttempts cfg); reflexivity.
  - rewrite loop_S.
    destruct (attempt <=? MaxAttempts cfg);
      [| exists []; rewrite app_nil_r; reflexivity].
    rewrite iteration_logged.
    destruct (ctx_Done rt w) as [[c |] w1];
      [exists []; rewrite app_nil_r; reflexivity |].
    destruct (op w1) as [[err |] w2]; [| exists [None]; reflexivity].
    destruct (negb _); [exists [Some err]; reflexivity |].
    destruct (attempt =? MaxAttempts cfg); [exists [Some err]; reflexivity |].
    cbv zeta.
    destruct (sleep_or_Done rt _ _) as [[c |] w4];
      [exists [Some err]; reflexivity |].
    destruct (IH (attempt + 1) (nextDelay cfg delay) (Some err) w4
                (log ++ [Some err])) as [ext Hext].
    exists (Some err :: ext). rewrite Hext, <- app_assoc. reflexivity.
Qed.

(** Without cancellation and without a failure that is not retryable, the
    loop ends on the first success or after its last attempt: an error is
    returned only when all remaining attempts were made, and what is
    returned is the result of the last invocation. *)
Lemma loop_retries {W} (rt : Runtime W) cfg op :
  never_cancelled rt -> fails_only_retryably cfg op ->
  forall fuel attempt delay lastErr w log,
    attempt + Z.of_nat fuel = MaxAttempts cfg + 1 -> (0 < fuel)%nat ->
    exists r w' ext,
      loop (with_log rt) cfg (logged op) fuel attempt delay lastErr (w, log)
        = (r, (w', log ++ ext)) /\
      last ext = Some r /\
      (is_Some r -> length ext = fuel) /\
      Forall (fun x => exists w0, (op w0).1 = x) ext.
Proof.
  intros [Hctx Hsleep] Hretry.
  induction fuel as [| fuel IH]; intros attempt delay lastErr w log Hsum Hpos;
    [lia |].
  rewrite loop_S.
  replace (attempt <=? MaxAttempts cfg) with true by (symmetry; lia).
  rewrite iteration_logged.
  pose proof (Hctx w) as Hc.
  destruct (ctx_Done rt w) as [c w1]. simpl in Hc. subst c.
  pose proof (Hretry w1) as Hr.
  destruct (op w1) as [[err |] w2] eqn:Hop; simpl in Hr.
  - rewrite (Hr err eq_refl). simpl.
    destruct (Z.eqb_spec attempt (MaxAttempts cfg)) as [Hlast | Hmore].
    + exists (Some err), w2, [Some err].
      repeat split; try reflexivity.
      * intros _. simpl. lia.
      * constructor; [| constructor]. exists w1. rewrite Hop. reflexivity.
    + pose proof (Hsleep (addJitter rt delay (JitterFraction cfg) w2).1
                    (addJitter rt delay (JitterFraction cfg) w2).2) as Hs.
      destruct (sleep_or_Done rt _ _) as [c w4]. simpl in Hs. subst c.
      destruct (IH (attempt + 1) (nextDelay cfg delay) (Some err) w4
                  (log ++ [Some err]) ltac:(lia) ltac:(lia))
        as (r & w' & ext & Hloop & Hlast & Hlen & Hall).
      exists r, w', (Some err :: ext).
      rewrite Hloop, <- app_assoc. split; [reflexivity |].
      split; [| split].
      * destruct ext; [discriminate | exact Hlast].
      * intros Hsome. simpl. rewrite (Hlen Hsome). reflexivity.
      * constructor; [| exact Hall]. exists w1. rewrite Hop. reflexivity.
  - exists None, w2, [None].
    repeat split; try reflexivity.
    + intros [x Hx]. discriminate.
    + constructor; [| constructor]. exists w1. rewrite Hop. reflexivity.
Qed.

(** [Do] under the same assumptions, with [n] the attempts it makes at
    most: the configured number, or 3 when that is 0. *)
Lemma Do_retries {W} (rt : Runtime W) cfg op (w : W) :
  never_cancelled rt -> fails_only_retryably cfg op ->
  let n := MaxAttempts (withDefaults cfg) in
  exists r log,
    Do_log rt cfg op w = (r, log) /\
    (1 <= n -> last log = Some r) /\
    (is_Some r -> Z.of_nat (length log) = n) /\
    (n <= 0 -> r = None /\ log = []) /\
    Forall (fun x => exists w0, (op w0).1 = x) log.
Proof.
  intros Hnc Hretry n. unfold Retry.Do_log, Retry.Do. fold n.
  destruct (Z.to_nat n) as [| k] eqn:Hfuel.
  - assert (Hn : n <= 0) by lia.
    exists None, []. rewrite loop_O.
    split; [reflexivity |]. split; [lia |].
    split; [intros [x Hx]; discriminate |]. auto.
  - destruct (loop_retries rt (withDefaults cfg) op Hnc Hretry (S k) 1
                (InitialDelay (withDefaults cfg)) None w []
                ltac:(fold n; lia) ltac:(lia))
      as (r & w' & ext & Hloop & Hlast & Hlen & Hall).
    rewrite Hloop. simpl.
    exists r, ext. split; [reflexivity |].
    split; [intros _; exact Hlast |].
    split; [intros Hsome; rewrite (Hlen Hsome); lia |].
    split; [lia | exact Hall].
Qed.

(** *** Exhausting the attempts (C6) *)

Lemma always_fails_only_retryably {W} cfg (op : W -> option error * W) :
  always_fails_retryable cfg op -> fails_only_retryably cfg op.
Proof.
  intros Hall w e He. destruct (Hall w) as (e' & He' & Hr). congruence.
Qed.

(** C6 (amended): with a context that is not cancelled and an operation
    that fails on every invocation with a retryable error, [Do] with
    [MaxAttempts = n] and [n >= 1] invokes the operation exactly [n] times
    and returns the error of the [n]-th invocation as it is; with
    [MaxAttempts = 0] the default of 3 attempts applies, and the operation
    is invoked exactly 3 times. *)
Theorem Do_exhausts_attempts {W} (rt : Runtime W) cfg op (w : W) :
  never_cancelled rt -> always_fails_retryable cfg op ->
  (1 <= MaxAttempts cfg -> exhausts_attempts rt cfg op w (MaxAttempts cfg)) /\
  (MaxAttempts cfg = 0 -> exhausts_attempts rt cfg op w 3).
Proof.
  intros Hnc Hall.
  destruct (Do_retries rt cfg op w Hnc (always_fails_only_retryably _ _ Hall))
    as (r & log & HDo & Hlast & Hlen & _ & Hres).
  assert (Hgoal : 1 <= MaxAttempts (withDefaults cfg) ->
                  exhausts_attempts rt cfg op w (MaxAttempts (withDefaults cfg))).
  { intros Hn. unfold exhausts_attempts. rewrite HDo.
    specialize (Hlast Hn).
    assert (Hsome : is_Some r).
    { apply last_Some_elem_of in Hlast.
      rewrite Forall_forall in Hres.
      destruct (Hres r Hlast) as [w0 Hw0].
      destruct (Hall w0) as (e & He & _).
      exists e. congruence. }
    auto. }
  simpl in Hgoal. split.
  - intros Hn.
    destruct (Z.eqb_spec (MaxAttempts cfg) 0) as [H0 | _]; [lia |].
    apply Hgoal, Hn.
  - intros H0. rewrite H0 in Hgoal. simpl in Hgoal. apply Hgoal. lia.
Qed.

(** *** Failing fast (C7) *)

(** C7: when the allow-list is not empty and the error of the first
    invocation matches none of its entries, that invocation is the only
    one and [Do] returns its error. *)
Theorem Do_fails_fast {W} (rt : Runtime W) cfg op (w : W) r log e :
  Do_log rt cfg op w = (r, log) ->
  head log = Some (Some e) ->
  RetryableErrors cfg <> [] ->
  Forall (fun t => errors_Is e t = false) (RetryableErrors cfg) ->
  log = [Some e] /\ r = Some e.
Proof.
  intros HDo Hhead Hne Hnone.
  assert (Hclass : isRetryable e (RetryableErrors (withDefaults cfg)) = false)
    by exact (isRetryable_false e _ Hne Hnone).
  unfold Retry.Do_log, Retry.Do in HDo.
  generalize dependent (withDefaults cfg). intros cfg' HDo Hclass.
  destruct (Z.to_nat (MaxAttempts cfg')) as [| fuel].
  { rewrite loop_O in HDo. injection HDo as <- <-. discriminate. }
  rewrite loop_S in HDo.
  destruct (1 <=? MaxAttempts cfg');
    [| injection HDo as <- <-; discriminate].
  rewrite iteration_logged in HDo.
  destruct (ctx_Done rt w) as [[c |] w1];
    [injection HDo as <- <-; discriminate |].
  destruct (op w1) as [[err |] w2];
    [| injection HDo as <- <-; discriminate].
  destruct (isRetryable err (RetryableErrors cfg')) eqn:Hr; cbn [negb] in HDo.
  - (* a retryable first error is not [e] *)
    exfalso.
    assert (Hfirst : head log = Some (Some err)).
    { destruct (1 =? MaxAttempts cfg');
        [injection HDo as <- <-; reflexivity |].
      cbv zeta in HDo.
      destruct (sleep_or_Done rt _ _) as [[c |] w4];
        [injection HDo as <- <-; reflexivity |].
      destruct (loop_log_extends rt cfg' op fuel (1 + 1)
                  (nextDelay cfg' (InitialDelay cfg')) (Some err) w4
                  ([] ++ [Some err]))
        as [ext Hext].
      destruct (Retry.loop _ _ _ _ _ _ _ _ _) as [r' [w' log']].
      injection HDo as <- <-. simpl in Hext. subst log'. reflexivity. }
    congruence.
  - injection HDo as <- <-. simpl in Hhead.
    injection Hhead as <-. auto.
Qed.

(** *** The empty allow-list (C10) *)


End RetryProperties.

(** ** Retry executor on concrete runs *)

Section RetryRuns.

Import Retry.

Lemma quiet_runtime_never_cancelled u c : never_cancelled (quiet_runtime u c).
Proof. split; reflexivity. Qed.

Lemma failing_always_fails cfg msg :
  RetryableErrors cfg = [] \/ RetryableErrors cfg = [msg] ->
  always_fails_retryable String.eqb cfg (failing msg).
Proof.
  intros Hl w. exists msg. split; [reflexivity |].
  destruct Hl as [-> | ->]; [reflexivity |].
  simpl. rewrite String.eqb_refl. reflexivity.
Qed.

(** *** C1: the delay after jitter *)

(** C1 fails on the code: [addJitter] does not clamp the subtractive
    branch.  With a base delay of 100 ms, a jitter fraction of 2, the draw
    0.75 from [rand.Float64()] and the draw 0 from [rand.Intn(2)], the
    jitter is 150 ms and the returned delay is -50 ms. *)
Theorem addJitter_negative_delay :
  (addJitter (quiet_runtime 0.75 0) (100 * millisecond) 2 0%nat).1 = -50000000.
Proof. vm_compute. reflexivity. Qed.

(** *** C6 *)

(** C6, as stated, does not hold for [MaxAttempts = 0]: [Do] replaces it
    by the default 3 and the operation is invoked 3 times, not 0 times. *)
Lemma Do_zero_maxAttempts_invokes_thrice :
  ~ (forall (W : Type) (rt : Runtime W) (cfg : Config)
            (op : W -> option string * W) (w : W),
        never_cancelled rt ->
        always_fails_retryable String.eqb cfg op ->
        exhausts_attempts String.eqb rt cfg op w (MaxAttempts cfg)).
Proof.
  intros H.
  specialize (H nat (quiet_runtime 0.5 1) (mkConfig 0 0 0 0 0.5 [])
                (failing "timeout") 0%nat
                (quiet_runtime_never_cancelled _ _)
                (failing_always_fails (mkConfig 0 0 0 0 0.5 []) "timeout"
                   (or_introl eq_refl))).
  unfold exhausts_attempts in H. vm_compute in H.
  destruct H as [H _]. discriminate H.
Qed.

Lemma Do_exhausts_attempts_witness :
  exhausts_attempts String.eqb (quiet_runtime 0.5 1)
    (mkConfig 4 0 0 0 0.5 ["timeout"]) (failing "timeout") 0%nat 4 /\
  exhausts_attempts String.eqb (quiet_runtime 0.5 1)
    (mkConfig 0 0 0 0 0.5 ["timeout"]) (failing "timeout") 0%nat 3.
Proof.
  split.
  - refine (proj1 (Do_exhausts_attempts String.eqb (quiet_runtime 0.5 1)
              (mkConfig 4 0 0 0 0.5 ["timeout"]) (failing "timeout") 0%nat _ _) _).
    + split; reflexivity.
    + intros w. exists "timeout". split; reflexivity.
    + vm_compute. discriminate.
  - refine (proj2 (Do_exhausts_attempts String.eqb (quiet_runtime 0.5 1)
              (mkConfig 0 0 0 0 0.5 ["timeout"]) (failing "timeout") 0%nat _ _) _).
    + split; reflexivity.
    + intros w. exists "timeout". split; reflexivity.
    + reflexivity.
Defined.

(** *** C7 *)

Lemma Do_fails_fast_witness :
  let '(r, log) :=
    Do_log String.eqb (quiet_runtime 0.5 1)
      (mkConfig 3 0 0 0 0.5 ["timeout"; "unavailable"])
      (failing "bad request") 0%nat in
  log = [Some "bad request"] /\ r = Some "bad request".
Proof.
  destruct (Do_log String.eqb (quiet_runtime 0.5 1)
              (mkConfig 3 0 0 0 0.5 ["timeout"; "unavailable"])
              (failing "bad request") 0%nat) as [r log] eqn:E.
  refine (Do_fails_fast String.eqb _ _ _ _ r log "bad request" E _ _ _).
  - vm_compute in E. injection E as <- <-. reflexivity.
  - discriminate.
  - repeat constructor.
Defined.

(** *** C10 *)


End RetryRuns.

(** * Further properties *)

(** ** Circuit breaker: what holds between calls *)

Section BreakerBehaviour.

Import CircuitBreaker.

Lemma wrap32_le x : 0 <= x -> 0 <= wrap32 x <= x.
Proof.
  intros Hx. unfold wrap32. split.
  - apply Z.mod_pos_bound. lia.
  - apply Z.mod_le; lia.
Qed.

Lemma wrap32_small x : 0 <= x < 2 ^ 32 -> wrap32 x = x.
Proof. intros Hx. unfold wrap32. apply Z.mod_small. exact Hx. Qed.

(** The proofs below evaluate a call on a breaker given by its fields,
    split on the tests the code makes, and finish by arithmetic. *)
Ltac breaker_eval_in H :=
  cbv beta iota zeta delta
    [currentState beforeRequest afterRequest State_ onSuccess onFailure
     setState toNewGeneration incRequests admission set_counts set_state
     set_generation set_expiry notify zero_counts IsZero Before Add zeroTime
     apply_call Execute succeeded
     name maxRequests interval timeout failureThreshold successThreshold
     onStateChange state generation cb_counts expiry notified
     Requests TotalSuccesses TotalFailures ConsecutiveSuccesses
     ConsecutiveFailures fst snd andb negb orb] in H.

Ltac breaker_eval :=
  cbv beta iota zeta delta
    [at_rest zero_counts zeroTime Add
     name maxRequests interval timeout failureThreshold successThreshold
     onStateChange state generation cb_counts expiry notified
     Requests TotalSuccesses TotalFailures ConsecutiveSuccesses
     ConsecutiveFailures fst snd].

Ltac breaker_cases H :=
  repeat (match type of H with
          | context [bool_decide (?a = ?b)] =>
              is_constructor a; is_constructor b;
              destruct (bool_decide_reflect (a = b)) as [Heq | Hne];
              [try discriminate Heq | try (exfalso; apply Hne; reflexivity)]
          | context [bool_decide ?P] => destruct (bool_decide_reflect P)
          | context [Z.ltb ?a ?b] => destruct (Z.ltb_spec a b)
          | context [Z.geb ?a ?b] => destruct (Z.geb_spec a b)
          | context [Z.eqb ?a ?b] => destruct (Z.eqb_spec a b)
          | context [if ?b then _ else _] => is_var b; destruct b
          end; breaker_eval_in H).

Ltac breaker_finish :=
  repeat split; intros; try discriminate; try reflexivity; try assumption;
  repeat match goal with
    | H : ?a = ?a -> _ |- _ => specialize (H eq_refl)
    | H : _ /\ _ |- _ => destruct H
    end;
  first [ congruence | lia ].

Lemma at_rest_currentState cb now : at_rest cb -> at_rest (currentState cb now).2.
Proof.
  destruct cb as [nm mr iv tm ft st cbk s g [rq ts tf cs cf] e ns].
  intros Hrest. breaker_eval_in Hrest. unfold at_rest in Hrest. breaker_eval_in Hrest.
  destruct Hrest as (Hmr & Hft & Hst & Hrq & Hor & Hcl & Hho).
  remember (currentState _ now).2 as cb' eqn:E. breaker_eval_in E.
  destruct s; breaker_cases E; subst cb'; breaker_eval; breaker_finish.
Qed.

Lemma at_rest_beforeRequest cb now : at_rest cb -> at_rest (beforeRequest cb now).2.
Proof.
  destruct cb as [nm mr iv tm ft st cbk s g [rq ts tf cs cf] e ns].
  intros Hrest. unfold at_rest in Hrest. breaker_eval_in Hrest.
  destruct Hrest as (Hmr & Hft & Hst & Hrq & Hor & Hcl & Hho).
  pose proof (wrap32_le (rq + 1) ltac:(lia)) as Hw.
  pose proof (wrap32_le (0 + 1) ltac:(lia)) as Hw0.
  remember (beforeRequest _ now).2 as cb' eqn:E. breaker_eval_in E.
  destruct s; breaker_cases E; subst cb'; breaker_eval; breaker_finish.
Qed.

Lemma at_rest_afterRequest cb before success now :
  at_rest cb -> at_rest (afterRequest cb before success now).
Proof.
  destruct cb as [nm mr iv tm ft st cbk s g [rq ts tf cs cf] e ns].
  intros Hrest. unfold at_rest in Hrest. breaker_eval_in Hrest.
  destruct Hrest as (Hmr & Hft & Hst & Hrq & Hor & Hcl & Hho).
  remember (afterRequest _ before success now) as cb' eqn:E. breaker_eval_in E.
  destruct success, s; breaker_cases E; subst cb'; breaker_eval; breaker_finish.
Qed.

Lemma at_rest_apply_call cb c : at_rest cb -> at_rest (apply_call cb c).
Proof.
  intros H. destruct c as [now | before success now | now]; simpl.
  - apply at_rest_beforeRequest, H.
  - apply at_rest_afterRequest, H.
  - apply (at_rest_currentState cb now), H.
Qed.

Lemma at_rest_after_calls cb cs : at_rest cb -> at_rest (after_calls cb cs).
Proof.
  unfold after_calls. revert cb.
  induction cs as [| c cs IH]; intros cb H; simpl; [exact H |].
  apply IH, at_rest_apply_call, H.
Qed.

Lemma at_rest_NewCircuitBreaker nm cfg now :
  valid_config cfg -> at_rest (NewCircuitBreaker nm cfg now).
Proof.
  intros (Hmr & Hft & Hst). destruct cfg as [mr iv tm ft st cbk].
  simpl in Hmr, Hft, Hst.
  remember (NewCircuitBreaker nm _ now) as cb' eqn:E.
  unfold NewCircuitBreaker in E. breaker_eval_in E.
  cbv beta iota delta [MaxRequests Interval Timeout FailureThreshold
                        SuccessThreshold OnStateChange] in E.
  breaker_cases E; subst cb'; breaker_eval; breaker_finish.
Qed.

Lemma apply_call_config cb c :
  let cb' := apply_call cb c in
  name cb' = name cb /\ maxRequests cb' = maxRequests cb /\
  interval cb' = interval cb /\ timeout cb' = timeout cb /\
  failureThreshold cb' = failureThreshold cb /\
  successThreshold cb' = successThreshold cb /\
  onStateChange cb' = onStateChange cb.
Proof.
  destruct cb as [nm mr iv tm ft st cbk s g [rq ts tf cs cf] e ns].
  cbv zeta. remember (apply_call _ c) as cb' eqn:E.
  destruct c as [now | before [|] now | now]; breaker_eval_in E;
    destruct s; breaker_cases E; subst cb'; repeat split; reflexivity.
Qed.

(** X1: no call on a breaker changes its configuration: name, probe
    limit, interval, timeout, the two thresholds and the callback stay as
    [NewCircuitBreaker] set them. *)
Theorem calls_keep_configuration cb (cs : list call) :
  let cb' := after_calls cb cs in
  name cb' = name cb /\ maxRequests cb' = maxRequests cb /\
  interval cb' = interval cb /\ timeout cb' = timeout cb /\
  failureThreshold cb' = failureThreshold cb /\
  successThreshold cb' = successThreshold cb /\
  onStateChange cb' = onStateChange cb.
Proof.
  unfold after_calls. revert cb.
  induction cs as [| c cs IH]; intros cb; simpl; [repeat split; reflexivity |].
  specialize (IH (apply_call cb c)). simpl in IH.
  destruct (apply_call_config cb c) as (H1 & H2 & H3 & H4 & H5 & H6 & H7).
  destruct IH as (I1 & I2 & I3 & I4 & I5 & I6 & I7).
  repeat split; congruence.
Qed.

(** X2: whatever calls were made on a breaker built by
    [NewCircuitBreaker], while it is HalfOpen the number of calls admitted
    in the current generation never exceeds [maxRequests], and its expiry
    is the zero time. *)
Theorem halfopen_probe_budget nm cfg t0 (cs : list call) :
  valid_config cfg ->
  let cb := after_calls (NewCircuitBreaker nm cfg t0) cs in
  state cb = StateHalfOpen ->
  0 <= Requests (cb_counts cb) <= maxRequests cb /\ expiry cb = zeroTime.
Proof.
  intros Hcfg cb Hhalf.
  pose proof (at_rest_after_calls _ cs (at_rest_NewCircuitBreaker nm cfg t0 Hcfg))
    as (_ & _ & _ & Hrq & _ & _ & Hho).
  fold cb in Hrq, Hho. destruct (Hho Hhalf) as (_ & _ & Hle & He). auto.
Qed.

(** X3: whatever calls were made on a breaker built by
    [NewCircuitBreaker], between calls a Closed breaker has fewer
    consecutive failures than [failureThreshold], a HalfOpen breaker has
    fewer consecutive successes than [successThreshold] and no consecutive
    failure, and the two consecutive counters are never both non-zero. *)
Theorem thresholds_not_reached_at_rest nm cfg t0 (cs : list call) :
  valid_config cfg ->
  let cb := after_calls (NewCircuitBreaker nm cfg t0) cs in
  let c := cb_counts cb in
  (state cb = StateClosed -> ConsecutiveFailures c < failureThreshold cb) /\
  (state cb = StateHalfOpen ->
     ConsecutiveSuccesses c < successThreshold cb /\ ConsecutiveFailures c = 0) /\
  (ConsecutiveSuccesses c = 0 \/ ConsecutiveFailures c = 0).
Proof.
  intros Hcfg cb c.
  pose proof (at_rest_after_calls _ cs (at_rest_NewCircuitBreaker nm cfg t0 Hcfg))
    as (_ & _ & _ & _ & Hor & Hcl & Hho).
  fold cb in Hor, Hcl, Hho. fold c in Hor, Hcl, Hho.
  split; [exact Hcl |]. split; [| exact Hor].
  intros Hhalf. destruct (Hho Hhalf) as (H1 & H2 & _). auto.
Qed.

Lemma demo_config_valid : valid_config demo_config.
Proof. unfold valid_config, demo_config. simpl. lia. Qed.

Lemma halfopen_probe_budget_witness :
  let cb := after_calls (NewCircuitBreaker "llm" demo_config 1000) probe_calls in
  0 <= Requests (cb_counts cb) <= maxRequests cb /\ expiry cb = zeroTime.
Proof.
  apply (halfopen_probe_budget "llm" demo_config 1000 probe_calls).
  - exact demo_config_valid.
  - vm_compute. reflexivity.
Defined.

Lemma thresholds_not_reached_at_rest_witness :
  let cb := after_calls (NewCircuitBreaker "llm" demo_config 1000) probe_calls in
  ConsecutiveSuccesses (cb_counts cb) < successThreshold cb /\
  ConsecutiveFailures (cb_counts cb) = 0.
Proof.
  refine (proj1 (proj2 (thresholds_not_reached_at_rest "llm" demo_config 1000
                          probe_calls demo_config_valid)) _).
  vm_compute. reflexivity.
Defined.

(** ** Circuit breaker: the Closed interval *)

Lemma wrap64_succ_neq g : wrap64 (g + 1) <> g.
Proof.
  unfold wrap64. intros H.
  assert (Hr : 0 <= g < 2 ^ 64) by (rewrite <- H; apply Z.mod_pos_bound; lia).
  destruct (Z.eq_dec g (2 ^ 64 - 1)) as [-> | Hne].
  - vm_compute in H. discriminate H.
  - rewrite Z.mod_small in H by lia. lia.
Qed.

(** X4: in a Closed breaker whose expiry is set and lies before [now], the
    next look at the state starts a new generation: still Closed, counters
    zeroed, expiry moved one interval past [now]; a completion recorded at
    such a time is dropped even though the call was admitted in the
    generation the breaker was in.  With a zero expiry, or at
    [now <= expiry], the state is returned and nothing changes. *)
Theorem closed_interval_reset cb now :
  state cb = StateClosed ->
  (expiry cb <> zeroTime -> expiry cb < now ->
     let '(st, gen, cb') := currentState cb now in
     st = StateClosed /\ gen = wrap64 (generation cb + 1) /\
     cb_counts cb' = zero_counts /\
     expiry cb' = (if interval cb =? 0 then zeroTime else Add now (interval cb)) /\
     forall success, afterRequest cb (generation cb) success now = cb') /\
  (expiry cb = zeroTime \/ now <= expiry cb ->
     currentState cb now = (StateClosed, generation cb, cb)).
Proof.
  intros Hcl. split.
  - intros Hset Hlt.
    assert (Hcur : (currentState cb now).2 = toNewGeneration cb now).
    { unfold currentState. simpl. rewrite Hcl. unfold IsZero, Before, zeroTime in *.
      destruct (Z.eqb_spec (expiry cb) 0) as [H0 | _]; [contradiction |].
      rewrite (proj2 (Z.ltb_lt _ _) Hlt). reflexivity. }
    destruct (toNewGeneration_fields cb now) as (Hs & Hg & Hc & _ & _ & _ & He).
    rewrite Hcl in He.
    unfold afterRequest. rewrite (currentState_result cb now), Hcur.
    rewrite Hs, Hg. split; [exact Hcl |]. split; [reflexivity |].
    split; [exact Hc |]. split; [exact He |].
    intros success.
    rewrite bool_decide_eq_false_2 by apply wrap64_succ_neq. reflexivity.
  - intros Hno.
    assert (Hdue : transition_due cb now = false).
    { unfold transition_due. rewrite Hcl. unfold IsZero, Before, zeroTime in *.
      destruct Hno as [-> | Hle]; [reflexivity |].
      rewrite (proj2 (Z.ltb_ge _ _) Hle). apply andb_false_r. }
    rewrite (currentState_result cb now), (currentState_not_due cb now Hdue), Hcl.
    reflexivity.
Qed.

Lemma closed_interval_reset_witness :
  cb_counts (afterRequest llm_busy 1 false 70000000000) = zero_counts /\
  currentState llm_busy 3000 = (StateClosed, 1, llm_busy).
Proof.
  assert (Hcl : state llm_busy = StateClosed) by (vm_compute; reflexivity).
  assert (Hset : expiry llm_busy <> zeroTime) by (vm_compute; discriminate).
  assert (Hlate : expiry llm_busy < 70000000000) by (vm_compute; reflexivity).
  assert (Hearly : 3000 <= expiry llm_busy) by (vm_compute; discriminate).
  assert (Hgen : generation llm_busy = 1) by (vm_compute; reflexivity).
  destruct (closed_interval_reset llm_busy 70000000000 Hcl) as [Hreset _].
  destruct (closed_interval_reset llm_busy 3000 Hcl) as [_ Hkeep].
  specialize (Hreset Hset Hlate).
  specialize (Hkeep (or_intror Hearly)).
  destruct (currentState llm_busy 70000000000) as [[st gen] cb'].
  destruct Hreset as (_ & _ & Hc & _ & Hdrop).
  rewrite Hgen in Hdrop, Hkeep.
  split; [rewrite Hdrop; exact Hc | exact Hkeep].
Defined.

(** ** Circuit breaker: [Execute] *)

Lemma Execute_rejected {W} cb (fn : W -> outcome * W) t1 t2 w gen e cb1 :
  beforeRequest cb t1 = (gen, Some e, cb1) ->
  Execute cb fn t1 t2 w = (Returned (Some e), cb1, w).
Proof. intros Hb. unfold Execute. rewrite Hb. reflexivity. Qed.

Lemma beforeRequest_error cb t1 :
  (beforeRequest cb t1).1.2 = None \/
  (beforeRequest cb t1).1.2 = Some ErrCircuitOpen \/
  (beforeRequest cb t1).1.2 = Some ErrTooManyRequests.
Proof.
  unfold beforeRequest. destruct (currentState cb t1) as [[st gen] cb1].
  destruct (bool_decide _); [auto |].
  destruct (_ && _); auto.
Qed.

(** X5: a panic of the wrapped function is recorded exactly as a returned
    error is: the breaker ends in the same state as if the function had
    returned an error, and [Execute] panics again with the same value.  A
    rejected call returns the same sentinel in both cases. *)
Theorem panic_recorded_as_failure {W} cb (fn fn' : W -> outcome * W) t1 t2 w r e w' :
  fn w = (Panicked r, w') ->
  fn' w = (Returned (Some e), w') ->
  let '(o, cb1, w1) := Execute cb fn t1 t2 w in
  let '(o', cb2, w2) := Execute cb fn' t1 t2 w in
  cb1 = cb2 /\ w1 = w2 /\
  ((o = Panicked r /\ o' = Returned (Some e)) \/
   (o = o' /\ (o = Returned (Some ErrCircuitOpen) \/
               o = Returned (Some ErrTooManyRequests)))).
Proof.
  intros Hfn Hfn'.
  pose proof (beforeRequest_error cb t1) as Herr.
  destruct (beforeRequest cb t1) as [[gen [err |]] cb0] eqn:Hb; simpl in Herr.
  - rewrite (Execute_rejected cb fn t1 t2 w gen err cb0 Hb).
    rewrite (Execute_rejected cb fn' t1 t2 w gen err cb0 Hb).
    split; [reflexivity |]. split; [reflexivity |]. right.
    split; [reflexivity |].
    destruct Herr as [H | [H | H]]; [discriminate | |]; injection H as ->; auto.
  - rewrite (Execute_runs_fn cb fn t1 t2 w gen cb0 Hb).
    rewrite (Execute_runs_fn cb fn' t1 t2 w gen cb0 Hb).
    rewrite Hfn, Hfn'. simpl. auto.
Qed.

Lemma panic_recorded_as_failure_witness :
  let cb := NewCircuitBreaker "llm" demo_config 1000 in
  (Execute cb (fun n : nat => (Panicked "boom", S n)) 1000 2000 0%nat).1.2 =
  (Execute cb (fun n : nat => (Returned (Some (ErrOperation "down")), S n))
     1000 2000 0%nat).1.2 /\
  state (Execute cb (fun n : nat => (Panicked "boom", S n)) 1000 2000 0%nat).1.2
    = StateOpen.
Proof.
  pose proof (panic_recorded_as_failure (NewCircuitBreaker "llm" demo_config 1000)
                (fun n : nat => (Panicked "boom", S n))
                (fun n : nat => (Returned (Some (ErrOperation "down")), S n))
                1000 2000 0%nat "boom" (ErrOperation "down") 1%nat
                eq_refl eq_refl) as H.
  cbv zeta.
  destruct (Execute _ (fun n : nat => (Panicked "boom", S n)) 1000 2000 0%nat)
    as [[o cb1] w1] eqn:E1.
  destruct (Execute _ (fun n : nat => (Returned (Some (ErrOperation "down")), S n))
              1000 2000 0%nat) as [[o' cb2] w2].
  destruct H as (Hcb & _). split; [exact Hcb |].
  vm_compute in E1. injection E1 as _ <- _. reflexivity.
Defined.

Lemma beforeRequest_admits cb t1 :
  transition_due cb t1 = false ->
  state cb = StateClosed \/
  (state cb = StateHalfOpen /\ Requests (cb_counts cb) < maxRequests cb) ->
  beforeRequest cb t1 = (generation cb, None, admission cb).
Proof.
  intros Hdue Hst. unfold beforeRequest.
  rewrite (currentState_result cb t1), (currentState_not_due cb t1 Hdue).
  destruct Hst as [-> | [-> Hbudget]].
  - rewrite !bool_decide_eq_false_2 by discriminate. reflexivity.
  - rewrite bool_decide_eq_false_2 by discriminate.
    rewrite bool_decide_eq_true_2 by reflexivity.
    replace (Requests (cb_counts cb) >=? maxRequests cb) with false
      by (symmetry; lia).
    reflexivity.
Qed.

(** An admitted [Execute] during which no lazy transition is due: the
    outcome of the wrapped function goes to [onSuccess] or [onFailure]. *)
Lemma Execute_records {W} cb (fn : W -> outcome * W) t1 t2 (w : W) :
  transition_due cb t1 = false ->
  transition_due cb t2 = false ->
  state cb = StateClosed \/
  (state cb = StateHalfOpen /\ Requests (cb_counts cb) < maxRequests cb) ->
  Execute cb fn t1 t2 w =
    ((fn w).1,
     (if succeeded (fn w).1
      then onSuccess (admission cb) (state cb) t2
      else onFailure (admission cb) (state cb) t2),
     (fn w).2).
Proof.
  intros Hdue1 Hdue2 Hst.
  rewrite (Execute_runs_fn cb fn t1 t2 w (generation cb) (admission cb)
             (beforeRequest_admits cb t1 Hdue1 Hst)).
  destruct (fn w) as [o w']. cbn [fst snd].
  change (afterRequest (admission cb) (generation cb) (succeeded o) t2)
    with (afterRequest (admission cb) (generation (admission cb)) (succeeded o) t2).
  rewrite (afterRequest_current (admission cb) (succeeded o) t2 Hdue2).
  reflexivity.
Qed.

Lemma onFailure_closed cb now :
  state cb = StateClosed ->
  let cb' := onFailure cb StateClosed now in
  let cf' := wrap32 (ConsecutiveFailures (cb_counts cb) + 1) in
  failureThreshold cb' = failureThreshold cb /\ timeout cb' = timeout cb /\
  (cf' < failureThreshold cb ->
     state cb' = StateClosed /\ expiry cb' = expiry cb /\
     generation cb' = generation cb /\
     ConsecutiveFailures (cb_counts cb') = cf') /\
  (failureThreshold cb <= cf' ->
     state cb' = StateOpen /\ generation cb' = wrap64 (generation cb + 1) /\
     cb_counts cb' = zero_counts /\ expiry cb' = Add now (timeout cb)).
Proof.
  destruct cb as [nm mr iv tm ft st cbk s g [rq ts tf cs cf] e ns].
  simpl. intros ->.
  unfold onFailure, setState. cbn -[wrap32 wrap64 Z.add].
  destruct (Z.geb_spec (wrap32 (cf + 1)) ft) as [Hge | Hlt];
    cbn -[wrap32 wrap64 Z.add].
  - destruct cbk; cbn -[wrap32 wrap64 Z.add];
      (split; [reflexivity |]); (split; [reflexivity |]);
      (split; [intros; lia | intros _; auto]).
  - split; [reflexivity |]. split; [reflexivity |].
    split; [intros _; auto | intros; lia].
Qed.

Lemma onSuccess_halfopen cb now :
  state cb = StateHalfOpen ->
  let cb' := onSuccess cb StateHalfOpen now in
  let cs' := wrap32 (ConsecutiveSuccesses (cb_counts cb) + 1) in
  successThreshold cb' = successThreshold cb /\ maxRequests cb' = maxRequests cb /\
  interval cb' = interval cb /\
  (cs' < successThreshold cb ->
     state cb' = StateHalfOpen /\ generation cb' = generation cb /\
     ConsecutiveSuccesses (cb_counts cb') = cs' /\
     Requests (cb_counts cb') = Requests (cb_counts cb)) /\
  (successThreshold cb <= cs' ->
     state cb' = StateClosed /\ generation cb' = wrap64 (generation cb + 1) /\
     cb_counts cb' = zero_counts /\
     expiry cb' = (if interval cb =? 0 then zeroTime else Add now (interval cb))).
Proof.
  destruct cb as [nm mr iv tm ft st cbk s g [rq ts tf cs cf] e ns].
  simpl. intros ->.
  unfold onSuccess, setState. cbn -[wrap32 wrap64 Z.add].
  destruct (Z.geb_spec (wrap32 (cs + 1)) st) as [Hge | Hlt];
    cbn -[wrap32 wrap64 Z.add].
  - destruct (iv =? 0); destruct cbk; cbn -[wrap32 wrap64 Z.add];
      (split; [reflexivity |]); (split; [reflexivity |]); (split; [reflexivity |]);
      (split; [intros; lia | intros _; auto]).
  - split; [reflexivity |]. split; [reflexivity |]. split; [reflexivity |].
    split; [intros _; auto | intros; lia].
Qed.

(** One failing [Execute] on a Closed breaker without interval. *)
Lemma Execute_closed_failure {W} cb (fn : W -> outcome * W) t1 t2 (w : W) :
  state cb = StateClosed -> expiry cb = zeroTime ->
  succeeded (fn w).1 = false ->
  let cb' := (Execute cb fn t1 t2 w).1.2 in
  let cf' := wrap32 (ConsecutiveFailures (cb_counts cb) + 1) in
  (Execute cb fn t1 t2 w).1.1 = (fn w).1 /\
  (Execute cb fn t1 t2 w).2 = (fn w).2 /\
  failureThreshold cb' = failureThreshold cb /\ timeout cb' = timeout cb /\
  (cf' < failureThreshold cb ->
     state cb' = StateClosed /\ expiry cb' = zeroTime /\
     generation cb' = generation cb /\
     ConsecutiveFailures (cb_counts cb') = cf') /\
  (failureThreshold cb <= cf' ->
     state cb' = StateOpen /\ generation cb' = wrap64 (generation cb + 1) /\
     cb_counts cb' = zero_counts /\ expiry cb' = Add t2 (timeout cb)).
Proof.
  intros Hcl Hexp Hfail.
  assert (Hdue : forall t, transition_due cb t = false).
  { intros t. unfold transition_due. rewrite Hcl, Hexp. reflexivity. }
  rewrite (Execute_records cb fn t1 t2 w (Hdue t1) (Hdue t2) (or_introl Hcl)).
  rewrite Hfail, Hcl. cbn [fst snd].
  destruct (onFailure_closed (admission cb) t2 Hcl) as (Hft & Htm & Hbelow & Htrip).
  cbn [admission set_counts incRequests cb_counts ConsecutiveFailures
       failureThreshold timeout generation expiry] in Hft, Htm, Hbelow, Htrip.
  split; [reflexivity |]. split; [reflexivity |].
  split; [exact Hft |]. split; [exact Htm |]. split.
  - intros Hlt. destruct (Hbelow Hlt) as (H1 & H2 & H3 & H4).
    rewrite Hexp in H2. auto.
  - exact Htrip.
Qed.

Lemma Execute_all_app {W} cb (l1 l2 : list ((W -> outcome * W) * Time * Time)) (w : W) :
  Execute_all cb (l1 ++ l2) w =
    let '(os1, cb1, w1) := Execute_all cb l1 w in
    let '(os2, cb2, w2) := Execute_all cb1 l2 w1 in
    (os1 ++ os2, cb2, w2).
Proof.
  revert cb w. induction l1 as [| [[fn t1] t2] l1 IH]; intros cb w; simpl.
  - destruct (Execute_all cb l2 w) as [[os2 cb2] w2]. reflexivity.
  - destruct (Execute cb fn t1 t2 w) as [[o cb1] w1].
    rewrite IH.
    destruct (Execute_all cb1 l1 w1) as [[os1 cb1'] w1'].
    destruct (Execute_all cb1' l2 w1') as [[os2 cb2] w2]. reflexivity.
Qed.

Lemma run_fns_app {W} (l1 l2 : list ((W -> outcome * W) * Time * Time)) (w : W) :
  run_fns (l1 ++ l2) w =
    let '(os1, w1) := run_fns l1 w in
    let '(os2, w2) := run_fns l2 w1 in
    (os1 ++ os2, w2).
Proof.
  revert w. induction l1 as [| [[fn t1] t2] l1 IH]; intros w; simpl.
  - destruct (run_fns l2 w) as [os2 w2]. reflexivity.
  - destruct (fn w) as [o w1]. rewrite IH.
    destruct (run_fns l1 w1) as [os1 w1'].
    destruct (run_fns l2 w1') as [os2 w2]. reflexivity.
Qed.

(** Failures below the threshold leave a Closed breaker Closed, in its
    generation, and are all counted. *)
Lemma failures_below_threshold {W} (calls : list ((W -> outcome * W) * Time * Time)) :
  forall cb (w : W),
    state cb = StateClosed -> expiry cb = zeroTime ->
    0 <= ConsecutiveFailures (cb_counts cb) ->
    failureThreshold cb <= 2 ^ 32 ->
    Forall (fun c => always_fails c.1.1) calls ->
    ConsecutiveFailures (cb_counts cb) + Z.of_nat (length calls) < failureThreshold cb ->
    let '(outs, cb', w') := Execute_all cb calls w in
    (outs, w') = run_fns calls w /\
    state cb' = StateClosed /\ expiry cb' = zeroTime /\
    generation cb' = generation cb /\
    failureThreshold cb' = failureThreshold cb /\ timeout cb' = timeout cb /\
    ConsecutiveFailures (cb_counts cb') =
      ConsecutiveFailures (cb_counts cb) + Z.of_nat (length calls).
Proof.
  induction calls as [| [[fn t1] t2] rest IH]; intros cb w Hcl Hexp Hcf Hthr Hall Hsum.
  - simpl. rewrite Z.add_0_r. auto 10.
  - simpl in *. inversion Hall as [| c l Hfn Hrest]; subst.
    destruct (Execute_closed_failure cb fn t1 t2 w Hcl Hexp (Hfn w))
      as (Ho & Hw & Hft & Htm & Hbelow & _).
    rewrite wrap32_small in Hbelow by lia.
    destruct (Hbelow ltac:(lia)) as (Hcl' & Hexp' & Hgen' & Hcf').
    destruct (Execute cb fn t1 t2 w) as [[o cb1] w1]. simpl in *.
    specialize (IH cb1 w1 Hcl' Hexp' ltac:(lia) ltac:(lia) Hrest ltac:(lia)).
    destruct (Execute_all cb1 rest w1) as [[os cb2] w2].
    destruct IH as (Hout & Hs2 & He2 & Hg2 & Hf2 & Ht2 & Hc2).
    destruct (fn w) as [o0 w0]. simpl in *. subst o0 w0.
    destruct (run_fns rest w1) as [os' w']. injection Hout as -> ->.
    repeat split; try congruence. lia.
Qed.

Lemma Execute_open_rejects {W} cb (fn : W -> outcome * W) t1 t2 (w : W) :
  state cb = StateOpen -> t1 <= expiry cb ->
  Execute cb fn t1 t2 w = (Returned (Some ErrCircuitOpen), cb, w).
Proof.
  intros Hopen Hle. apply (Execute_rejected cb fn t1 t2 w (generation cb)).
  assert (Hdue : transition_due cb t1 = false).
  { unfold transition_due, Before. rewrite Hopen. lia. }
  unfold beforeRequest.
  rewrite (currentState_result cb t1), (currentState_not_due cb t1 Hdue), Hopen.
  reflexivity.
Qed.

(** X6: on a Closed breaker without interval, [Execute] calls whose
    wrapped function fails, made one after the other until the consecutive
    failures reach [failureThreshold], are all admitted (each wrapped
    function runs) and the last of them opens the breaker: new generation,
    counters zeroed, expiry one timeout after that call's completion.  From
    then on every call arriving up to the expiry is rejected with
    [ErrCircuitOpen] and leaves breaker and world untouched. *)
Theorem failures_trip_breaker {W} cb
    (calls : list ((W -> outcome * W) * Time * Time)) fn t1 t2 (w : W) :
  state cb = StateClosed -> expiry cb = zeroTime ->
  0 <= ConsecutiveFailures (cb_counts cb) ->
  failureThreshold cb < 2 ^ 32 ->
  Forall (fun c => always_fails c.1.1) (calls ++ [(fn, t1, t2)]) ->
  ConsecutiveFailures (cb_counts cb) + Z.of_nat (length calls) + 1
    = failureThreshold cb ->
  let '(outs, cb', w') := Execute_all cb (calls ++ [(fn, t1, t2)]) w in
  (outs, w') = run_fns (calls ++ [(fn, t1, t2)]) w /\
  state cb' = StateOpen /\
  generation cb' = wrap64 (generation cb + 1) /\
  cb_counts cb' = zero_counts /\
  expiry cb' = Add t2 (timeout cb) /\
  forall (fn' : W -> outcome * W) t1' t2' w0,
    t1' <= expiry cb' ->
    Execute cb' fn' t1' t2' w0 = (Returned (Some ErrCircuitOpen), cb', w0).
Proof.
  intros Hcl Hexp Hcf Hthr Hall Hsum.
  apply Forall_app in Hall as [Hinit Hlast].
  inversion Hlast as [| c l Hfn _]; subst. simpl in Hfn.
  rewrite Execute_all_app, run_fns_app.
  pose proof (failures_below_threshold calls cb w Hcl Hexp Hcf ltac:(lia) Hinit
                ltac:(lia)) as Hbelow.
  destruct (Execute_all cb calls w) as [[os1 cb1] w1].
  destruct Hbelow as (Hout & Hs1 & He1 & Hg1 & Hf1 & Ht1 & Hc1).
  destruct (run_fns calls w) as [os1' w1']. injection Hout as <- <-.
  simpl.
  destruct (Execute_closed_failure cb1 fn t1 t2 w1 Hs1 He1 (Hfn w1))
    as (Ho & Hw & _ & _ & _ & Htrip).
  rewrite wrap32_small in Htrip by lia.
  destruct (Htrip ltac:(lia)) as (Hs2 & Hg2 & Hc2 & He2).
  destruct (Execute cb1 fn t1 t2 w1) as [[o cb2] w2]. simpl in *.
  destruct (fn w1) as [o0 w0]. simpl in *. subst o0 w0.
  split; [reflexivity |]. split; [exact Hs2 |].
  split; [congruence |]. split; [exact Hc2 |]. split; [congruence |].
  intros fn' t1' t2' w0 Hle. apply Execute_open_rejects; assumption.
Qed.

Lemma failures_trip_breaker_witness :
  state (Execute_all default_breaker (replicate 5 (failing_fn, 2000, 3000)) 0%nat).1.2
    = StateOpen /\
  (Execute_all default_breaker (replicate 5 (failing_fn, 2000, 3000)) 0%nat).2 = 5%nat.
Proof.
  pose proof (failures_trip_breaker default_breaker
                (replicate 4 (failing_fn, 2000, 3000)) failing_fn 2000 3000 0%nat
                eq_refl eq_refl ltac:(vm_compute; discriminate)
                ltac:(vm_compute; reflexivity)
                ltac:(repeat constructor) eq_refl) as H.
  change (replicate 4 (failing_fn, 2000, 3000) ++ [(failing_fn, 2000, 3000)])
    with (replicate 5 (failing_fn, 2000, 3000)) in H.
  destruct (Execute_all default_breaker (replicate 5 (failing_fn, 2000, 3000)) 0%nat)
    as [[outs cb'] w'].
  destruct H as (Hrun & Hopen & _). split; [exact Hopen |].
  vm_compute in Hrun. injection Hrun as _ ->. reflexivity.
Defined.

(** One successful [Execute] on a HalfOpen breaker with a probe left. *)
Lemma Execute_halfopen_success {W} cb (fn : W -> outcome * W) t1 t2 (w : W) :
  state cb = StateHalfOpen ->
  Requests (cb_counts cb) < maxRequests cb ->
  succeeded (fn w).1 = true ->
  let cb' := (Execute cb fn t1 t2 w).1.2 in
  let cs' := wrap32 (ConsecutiveSuccesses (cb_counts cb) + 1) in
  (Execute cb fn t1 t2 w).1.1 = (fn w).1 /\
  (Execute cb fn t1 t2 w).2 = (fn w).2 /\
  successThreshold cb' = successThreshold cb /\ maxRequests cb' = maxRequests cb /\
  interval cb' = interval cb /\
  (cs' < successThreshold cb ->
     state cb' = StateHalfOpen /\ generation cb' = generation cb /\
     ConsecutiveSuccesses (cb_counts cb') = cs' /\
     Requests (cb_counts cb') = wrap32 (Requests (cb_counts cb) + 1)) /\
  (successThreshold cb <= cs' ->
     state cb' = StateClosed /\ generation cb' = wrap64 (generation cb + 1) /\
     cb_counts cb' = zero_counts /\
     expiry cb' = (if interval cb =? 0 then zeroTime else Add t2 (interval cb))).
Proof.
  intros Hho Hbudget Hok.
  assert (Hdue : forall t, transition_due cb t = false).
  { intros t. unfold transition_due. rewrite Hho. reflexivity. }
  rewrite (Execute_records cb fn t1 t2 w (Hdue t1) (Hdue t2)
             (or_intror (conj Hho Hbudget))).
  rewrite Hok, Hho. cbn [fst snd].
  destruct (onSuccess_halfopen (admission cb) t2 Hho)
    as (Hst & Hmr & Hiv & Hbelow & Hclose).
  cbn [admission set_counts incRequests cb_counts ConsecutiveSuccesses Requests
       successThreshold maxRequests interval generation] in Hst, Hmr, Hiv, Hbelow, Hclose.
  split; [reflexivity |]. split; [reflexivity |].
  split; [exact Hst |]. split; [exact Hmr |]. split; [exact Hiv |].
  split; [exact Hbelow | exact Hclose].
Qed.

Lemma successes_below_threshold {W} (calls : list ((W -> outcome * W) * Time * Time)) :
  forall cb (w : W),
    state cb = StateHalfOpen ->
    0 <= ConsecutiveSuccesses (cb_counts cb) ->
    0 <= Requests (cb_counts cb) ->
    successThreshold cb <= 2 ^ 32 ->
    Forall (fun c => always_succeeds c.1.1) calls ->
    ConsecutiveSuccesses (cb_counts cb) + Z.of_nat (length calls) < successThreshold cb ->
    Requests (cb_counts cb) + Z.of_nat (length calls) <= maxRequests cb ->
    let '(outs, cb', w') := Execute_all cb calls w in
    (outs, w') = run_fns calls w /\
    state cb' = StateHalfOpen /\ generation cb' = generation cb /\
    successThreshold cb' = successThreshold cb /\ maxRequests cb' = maxRequests cb /\
    interval cb' = interval cb /\
    ConsecutiveSuccesses (cb_counts cb') =
      ConsecutiveSuccesses (cb_counts cb) + Z.of_nat (length calls) /\
    0 <= Requests (cb_counts cb') <= Requests (cb_counts cb) + Z.of_nat (length calls).
Proof.
  induction calls as [| [[fn t1] t2] rest IH];
    intros cb w Hho Hcs Hrq Hthr Hall Hsum Hbudget.
  - simpl. rewrite !Z.add_0_r. repeat split; try reflexivity; try assumption; lia.
  - simpl in *. inversion Hall as [| c l Hfn Hrest]; subst.
    assert (Hleft : Requests (cb_counts cb) < maxRequests cb) by lia.
    destruct (Execute_halfopen_success cb fn t1 t2 w Hho Hleft (Hfn w))
      as (Ho & Hw & Hst & Hmr & Hiv & Hbelow & _).
    rewrite wrap32_small in Hbelow by lia.
    destruct (Hbelow ltac:(lia)) as (Hho' & Hgen' & Hcs' & Hrq').
    pose proof (wrap32_le (Requests (cb_counts cb) + 1) ltac:(lia)) as Hwle.
    destruct (Execute cb fn t1 t2 w) as [[o cb1] w1]. simpl in *.
    specialize (IH cb1 w1 Hho' ltac:(lia) ltac:(lia) ltac:(lia) Hrest
                  ltac:(lia) ltac:(lia)).
    destruct (Execute_all cb1 rest w1) as [[os cb2] w2].
    destruct IH as (Hout & Hs2 & Hg2 & Hf2 & Hm2 & Hi2 & Hc2 & Hr2).
    destruct (fn w) as [o0 w0]. simpl in *. subst o0 w0.
    destruct (run_fns rest w1) as [os' w']. injection Hout as -> ->.
    repeat split; try congruence; lia.
Qed.

(** X7: on a HalfOpen breaker, [Execute] calls whose wrapped function
    succeeds, made one after the other within the probe limit until the
    consecutive successes reach [successThreshold], are all admitted and
    the last of them closes the breaker: new generation, counters zeroed,
    expiry one interval after that completion (the zero time without
    interval). *)
Theorem successes_close_breaker {W} cb
    (calls : list ((W -> outcome * W) * Time * Time)) fn t1 t2 (w : W) :
  state cb = StateHalfOpen ->
  0 <= ConsecutiveSuccesses (cb_counts cb) ->
  0 <= Requests (cb_counts cb) ->
  successThreshold cb < 2 ^ 32 ->
  Forall (fun c => always_succeeds c.1.1) (calls ++ [(fn, t1, t2)]) ->
  ConsecutiveSuccesses (cb_counts cb) + Z.of_nat (length calls) + 1
    = successThreshold cb ->
  Requests (cb_counts cb) + Z.of_nat (length calls) + 1 <= maxRequests cb ->
  let '(outs, cb', w') := Execute_all cb (calls ++ [(fn, t1, t2)]) w in
  (outs, w') = run_fns (calls ++ [(fn, t1, t2)]) w /\
  state cb' = StateClosed /\
  generation cb' = wrap64 (generation cb + 1) /\
  cb_counts cb' = zero_counts /\
  expiry cb' = (if interval cb =? 0 then zeroTime else Add t2 (interval cb)).
Proof.
  intros Hho Hcs Hrq Hthr Hall Hsum Hbudget.
  apply Forall_app in Hall as [Hinit Hlast].
  inversion Hlast as [| c l Hfn _]; subst. simpl in Hfn.
  rewrite Execute_all_app, run_fns_app.
  pose proof (successes_below_threshold calls cb w Hho Hcs Hrq ltac:(lia) Hinit
                ltac:(lia) ltac:(lia)) as Hbelow.
  destruct (Execute_all cb calls w) as [[os1 cb1] w1].
  destruct Hbelow as (Hout & Hs1 & Hg1 & Hf1 & Hm1 & Hi1 & Hc1 & Hr1).
  destruct (run_fns calls w) as [os1' w1']. injection Hout as <- <-.
  simpl.
  assert (Hleft : Requests (cb_counts cb1) < maxRequests cb1) by lia.
  destruct (Execute_halfopen_success cb1 fn t1 t2 w1 Hs1 Hleft (Hfn w1))
    as (Ho & Hw & _ & _ & _ & _ & Hclose).
  rewrite wrap32_small in Hclose by lia.
  destruct (Hclose ltac:(lia)) as (Hs2 & Hg2 & Hc2 & He2).
  destruct (Execute cb1 fn t1 t2 w1) as [[o cb2] w2]. simpl in *.
  destruct (fn w1) as [o0 w0]. simpl in *. subst o0 w0.
  split; [reflexivity |]. split; [exact Hs2 |].
  split; [congruence |]. split; [exact Hc2 |].
  rewrite He2, Hi1. reflexivity.
Qed.

(** X8: a HalfOpen breaker whose probe limit is used up rejects every
    further [Execute] with [ErrTooManyRequests], whatever the time, and
    stays exactly as it is: only the completion of a call admitted earlier
    can move it. *)
Theorem exhausted_probes_reject {W} cb
    (calls : list ((W -> outcome * W) * Time * Time)) (w : W) :
  state cb = StateHalfOpen ->
  maxRequests cb <= Requests (cb_counts cb) ->
  Execute_all cb calls w =
    (replicate (length calls) (Returned (Some ErrTooManyRequests)), cb, w).
Proof.
  intros Hho Hfull.
  induction calls as [| [[fn t1] t2] rest IH]; simpl; [reflexivity |].
  assert (Hrej : Execute cb fn t1 t2 w = (Returned (Some ErrTooManyRequests), cb, w)).
  { apply (Execute_rejected cb fn t1 t2 w (generation cb)).
    assert (Hdue : transition_due cb t1 = false)
      by (unfold transition_due; rewrite Hho; reflexivity).
    unfold beforeRequest.
    rewrite (currentState_result cb t1), (currentState_not_due cb t1 Hdue), Hho.
    rewrite bool_decide_eq_false_2 by discriminate.
    rewrite bool_decide_eq_true_2 by reflexivity.
    replace (Requests (cb_counts cb) >=? maxRequests cb) with true
      by (symmetry; lia).
    reflexivity. }
  rewrite Hrej, IH. reflexivity.
Qed.

Lemma successes_close_breaker_witness :
  state (Execute_all llm_halfopen
           (replicate 2 (counting_fn, 40000000001, 40000000002)) 0%nat).1.2
    = StateClosed.
Proof.
  pose proof (successes_close_breaker llm_halfopen
                [(counting_fn, 40000000001, 40000000002)]
                counting_fn 40000000001 40000000002 0%nat
                ltac:(vm_compute; reflexivity) ltac:(vm_compute; discriminate)
                ltac:(vm_compute; discriminate) ltac:(vm_compute; reflexivity)
                ltac:(repeat constructor) ltac:(vm_compute; reflexivity)
                ltac:(vm_compute; discriminate)) as H.
  change ([(counting_fn, 40000000001, 40000000002)]
            ++ [(counting_fn, 40000000001, 40000000002)])
    with (replicate 2 (counting_fn, 40000000001, 40000000002)) in H.
  destruct (Execute_all llm_halfopen _ 0%nat) as [[outs cb'] w'].
  destruct H as (_ & Hclosed & _). exact Hclosed.
Defined.

Lemma exhausted_probes_reject_witness :
  Execute_all default_probed (replicate 3 (counting_fn, 80000000000, 80000000001)) 0%nat
  = (replicate 3 (Returned (Some ErrTooManyRequests)), default_probed, 0%nat).
Proof.
  apply (exhausted_probes_reject default_probed
           (replicate 3 (counting_fn, 80000000000, 80000000001)) 0%nat).
  - vm_compute. reflexivity.
  - vm_compute. discriminate.
Defined.

End BreakerBehaviour.

(** ** Retry executor: the shape of every run *)

Section RetryBehaviour.

Import Retry.

Context {error : Type} (errors_Is : error -> error -> bool).

#[local] Abbreviation isRetryable := (isRetryable errors_Is).
#[local] Abbreviation iteration := (iteration errors_Is).
#[local] Abbreviation loop := (loop errors_Is).
#[local] Abbreviation Do := (Do errors_Is).
#[local] Abbreviation Do_log := (Do_log errors_Is).
#[local] Abbreviation retryable_failure := (retryable_failure errors_Is).
#[local] Abbreviation run_end := (run_end errors_Is).

Implicit Types (cfg : Config (error := error)).

Lemma loop_trace {W} (rt : Runtime W) cfg op :
  forall fuel attempt delay lastErr w log,
    attempt + Z.of_nat fuel = MaxAttempts cfg + 1 -> (0 < fuel)%nat ->
    exists r w' ext,
      loop (with_log rt) cfg (logged op) fuel attempt delay lastErr (w, log)
        = (r, (w', log ++ ext)) /\
      (length ext <= fuel)%nat /\
      Forall (retryable_failure cfg) (take (length ext - 1) ext) /\
      run_end rt cfg fuel r ext.
Proof.
  induction fuel as [| fuel IH]; intros attempt delay lastErr w log Hsum Hpos;
    [lia |].
  rewrite (loop_S errors_Is).
  replace (attempt <=? MaxAttempts cfg) with true by (symmetry; lia).
  rewrite (iteration_logged errors_Is).
  destruct (ctx_Done rt w) as [[c |] w1] eqn:Hctx.
  { exists (Some c), w1, []. rewrite app_nil_r.
    split; [reflexivity |]. split; [simpl; lia |]. split; [constructor |].
    right. split; [left; exists w; rewrite Hctx; reflexivity |].
    split; [simpl; lia | constructor]. }
  destruct (op w1) as [[err |] w2] eqn:Hop.
  2:{ exists None, w2, [None]. split; [reflexivity |]. split; [simpl; lia |].
      split; [constructor | reflexivity]. }
  destruct (isRetryable err (RetryableErrors cfg)) eqn:Hr; cbn [negb].
  2:{ exists (Some err), w2, [Some err]. split; [reflexivity |].
      split; [simpl; lia |]. split; [constructor |].
      left. split; [reflexivity | left; exact Hr]. }
  destruct (Z.eqb_spec attempt (MaxAttempts cfg)) as [Hlast | Hmore].
  { exists (Some err), w2, [Some err]. split; [reflexivity |].
    split; [simpl; lia |]. split; [constructor |].
    left. split; [reflexivity | right; simpl; lia]. }
  cbv zeta.
  destruct (sleep_or_Done rt _ _) as [[c |] w4] eqn:Hsleep.
  { exists (Some c), w4, [Some err]. split; [reflexivity |].
    split; [simpl; lia |]. split; [constructor |].
    right. split; [right; eexists _, _; rewrite Hsleep; reflexivity |].
    split; [simpl; lia |].
    constructor; [exists err; auto | constructor]. }
  destruct (IH (attempt + 1) (nextDelay cfg delay) (Some err) w4
              (log ++ [Some err]) ltac:(lia) ltac:(lia))
    as (r & w' & ext & Hloop & Hlen & Hinit & Hend).
  exists r, w', (Some err :: ext).
  rewrite Hloop, <- app_assoc. split; [reflexivity |].
  split; [simpl; lia |].
  unfold Retry.run_end in *.
  destruct ext as [| x ext'].
  - (* the context ended the run before another invocation *)
    split; [constructor |].
    destruct r as [e |]; [| discriminate].
    destruct Hend as [[Hl _] | (Hc & Hl & _)]; [discriminate |].
    right. split; [exact Hc |]. split; [simpl in *; lia |].
    constructor; [exists err; auto | constructor].
  - split.
    + simpl in *. rewrite Nat.sub_0_r in *.
      constructor; [exists err; auto | exact Hinit].
    + destruct r as [e |]; [| exact Hend].
      destruct Hend as [[Hl Hwhy] | (Hc & Hl & Hall)].
      * left. split; [exact Hl |].
        destruct Hwhy as [Hn | Hfull]; [left; exact Hn | right; simpl in *; lia].
      * right. split; [exact Hc |]. split; [simpl in *; lia |].
        constructor; [exists err; auto | exact Hall].
Qed.

Lemma Do_trace {W} (rt : Runtime W) cfg op (w : W) :
  exists r log,
    Do_log rt cfg op w = (r, log) /\
    (attempts cfg <= 0 -> r = None /\ log = []) /\
    (1 <= attempts cfg ->
       Z.of_nat (length log) <= attempts cfg /\
       Forall (retryable_failure cfg) (take (length log - 1) log) /\
       run_end rt (withDefaults cfg) (Z.to_nat (attempts cfg)) r log).
Proof.
  unfold Retry.Do_log, Retry.Do, attempts.
  destruct (Z.to_nat (MaxAttempts (withDefaults cfg))) as [| k] eqn:Hfuel.
  - exists None, []. rewrite (loop_O errors_Is).
    split; [reflexivity |]. split; [auto | lia].
  - destruct (loop_trace rt (withDefaults cfg) op (S k) 1
                (InitialDelay (withDefaults cfg)) None w [] ltac:(lia) ltac:(lia))
      as (r & w' & ext & Hloop & Hlen & Hinit & Hend).
    rewrite Hloop. exists r, ext.
    split; [reflexivity |]. split; [lia |].
    intros _. split; [lia |]. split; [exact Hinit | exact Hend].
Qed.

(** X9: [Do] never invokes the operation more often than the attempts it
    is configured for ([MaxAttempts], or 3 when that is 0; never when it is
    negative), whatever the operation returns and whatever the context
    does. *)
Theorem Do_attempts_bounded {W} (rt : Runtime W) cfg op (w : W) :
  Z.of_nat (length (Do_log rt cfg op w).2) <= Z.max 0 (attempts cfg).
Proof.
  destruct (Do_trace rt cfg op w) as (r & log & -> & Hzero & Hpos). simpl.
  destruct (Z.le_gt_cases (attempts cfg) 0) as [Hle | Hgt].
  - destruct (Hzero Hle) as [_ ->]. simpl. lia.
  - destruct (Hpos ltac:(lia)) as (Hlen & _). lia.
Qed.

(** X10: every invocation that [Do] follows by another one had failed
    with an error classified retryable: the operation is never invoked
    again after a success or after an error that is not retryable. *)
Theorem Do_retries_only_retryable_failures {W} (rt : Runtime W) cfg op (w : W) :
  let log := (Do_log rt cfg op w).2 in
  Forall (retryable_failure cfg) (take (length log - 1) log).
Proof.
  destruct (Do_trace rt cfg op w) as (r & log & -> & Hzero & Hpos). simpl.
  destruct (Z.le_gt_cases (attempts cfg) 0) as [Hle | Hgt].
  - destruct (Hzero Hle) as [_ ->]. constructor.
  - destruct (Hpos ltac:(lia)) as (_ & Hinit & _). exact Hinit.
Qed.

(** X11: what [Do] returns is never made up.  A [nil] means that the last
    invocation succeeded (or that no attempt was configured); an error is
    the error of the last invocation as it was returned, and then that
    error is not retryable or every attempt was made, or else it is an
    error the context reported.  And when the last invocation succeeded,
    [Do] returns [nil]. *)
Theorem Do_result_provenance {W} (rt : Runtime W) cfg op (w : W) :
  let '(r, log) := Do_log rt cfg op w in
  match r with
  | None => (attempts cfg <= 0 /\ log = []) \/ last log = Some None
  | Some e =>
      (last log = Some (Some e) /\
       (isRetryable e (RetryableErrors cfg) = false \/
        Z.of_nat (length log) = attempts cfg)) \/
      ctx_error rt e
  end /\
  (last log = Some None -> r = None).
Proof.
  destruct (Do_trace rt cfg op w) as (r & log & -> & Hzero & Hpos).
  destruct (Z.le_gt_cases (attempts cfg) 0) as [Hle | Hgt].
  - destruct (Hzero Hle) as [-> ->]. split; [left; auto | discriminate].
  - destruct (Hpos ltac:(lia)) as (_ & _ & Hend).
    unfold Retry.run_end in Hend. destruct r as [e |].
    + split.
      * destruct Hend as [[Hl Hwhy] | (Hc & _)]; [left | right; exact Hc].
        split; [exact Hl |]. destruct Hwhy as [Hn | Hfull]; [left; exact Hn |].
        right. rewrite Hfull. lia.
      * intros Hlast. exfalso.
        destruct Hend as [[Hl _] | (_ & _ & Hall)]; [congruence |].
        apply last_Some_elem_of in Hlast.
        rewrite Forall_forall in Hall.
        destruct (Hall None Hlast) as (e' & He' & _). discriminate.
    + split; [right; exact Hend | reflexivity].
Qed.

(** ** Retry executor: cancellation *)

(** X12: when the context is already done at the first poll and at least
    one attempt is configured, [Do] returns the context's error at once
    and the operation is not invoked. *)
Theorem Do_cancelled_before_start {W} (rt : Runtime W) cfg op (w : W) c :
  (ctx_Done rt w).1 = Some c ->
  1 <= attempts cfg ->
  Do rt cfg op w = (Some c, (ctx_Done rt w).2) /\
  Do_log rt cfg op w = (Some c, []).
Proof.
  unfold attempts, Retry.Do_log, Retry.Do. intros Hc Hn.
  destruct (Z.to_nat (MaxAttempts (withDefaults cfg))) as [| k] eqn:Hfuel; [lia |].
  rewrite !(loop_S errors_Is).
  replace (1 <=? MaxAttempts (withDefaults cfg)) with true by (symmetry; lia).
  rewrite (iteration_logged errors_Is). unfold Retry.iteration.
  destruct (ctx_Done rt w) as [[c' |] w1]; simpl in Hc; [| discriminate].
  injection Hc as ->. split; reflexivity.
Qed.

(** X13: when the first invocation fails with a retryable error, another
    attempt is configured, and the context is done during the wait, [Do]
    returns the context's error and the operation is not invoked again. *)
Theorem Do_cancelled_while_waiting {W} (rt : Runtime W) cfg op (w : W) w1 e w2 c :
  ctx_Done rt w = (None, w1) ->
  op w1 = (Some e, w2) ->
  isRetryable e (RetryableErrors cfg) = true ->
  2 <= attempts cfg ->
  (forall d w0, (sleep_or_Done rt d w0).1 = Some c) ->
  Do_log rt cfg op w = (Some c, [Some e]).
Proof.
  unfold attempts, Retry.Do_log, Retry.Do. intros Hctx Hop Hr Hn Hsleep.
  destruct (Z.to_nat (MaxAttempts (withDefaults cfg))) as [| k] eqn:Hfuel; [lia |].
  rewrite (loop_S errors_Is).
  replace (1 <=? MaxAttempts (withDefaults cfg)) with true by (symmetry; lia).
  rewrite (iteration_logged errors_Is), Hctx, Hop.
  change (RetryableErrors (withDefaults cfg)) with (RetryableErrors cfg).
  rewrite Hr. cbn [negb].
  replace (1 =? MaxAttempts (withDefaults cfg)) with false by (symmetry; lia).
  cbv zeta.
  match goal with
  | |- context [sleep_or_Done rt ?d ?w0] =>
      pose proof (Hsleep d w0) as Hs; destruct (sleep_or_Done rt d w0) as [x w4]
  end.
  simpl in Hs. subst x. reflexivity.
Qed.

(** ** Retry executor: jitter switched off *)

Lemma addJitter_off {W} (rt : Runtime (error := error) W) d jf (w : W) :
  PrimFloat.leb jf 0 = true -> addJitter rt d jf w = (d, w).
Proof. intros H. unfold addJitter. rewrite H. reflexivity. Qed.

Lemma loop_without_jitter {W} (rt rt' : Runtime W) cfg op :
  PrimFloat.leb (JitterFraction cfg) 0 = true ->
  (forall w0, ctx_Done rt w0 = ctx_Done rt' w0) ->
  (forall d w0, sleep_or_Done rt d w0 = sleep_or_Done rt' d w0) ->
  forall fuel attempt delay lastErr (w : W),
    loop rt cfg op fuel attempt delay lastErr w
    = loop rt' cfg op fuel attempt delay lastErr w.
Proof.
  intros Hoff Hctx Hsleep.
  induction fuel as [| fuel IH]; intros attempt delay lastErr w.
  - rewrite !(loop_O errors_Is). reflexivity.
  - rewrite !(loop_S errors_Is).
    destruct (attempt <=? MaxAttempts cfg); [| reflexivity].
    assert (Hit : iteration rt cfg op attempt delay w
                  = iteration rt' cfg op attempt delay w).
    { unfold Retry.iteration. rewrite Hctx.
      destruct (ctx_Done rt' w) as [[c |] w1]; [reflexivity |].
      destruct (op w1) as [[err |] w2]; [| reflexivity].
      destruct (negb _); [reflexivity |].
      destruct (attempt =? MaxAttempts cfg); [reflexivity |].
      rewrite !addJitter_off by exact Hoff. rewrite Hsleep. reflexivity. }
    rewrite Hit.
    destruct (iteration rt' cfg op attempt delay w) as [r w' | d' le' w'];
      [reflexivity | apply IH].
Qed.

(** X14: with a jitter fraction that is zero or negative, [Do] does not
    touch the random source: every wait is for the backoff delay itself,
    and two runtimes that differ only in their random source give the
    same run. *)
Theorem Do_without_jitter {W} (rt rt' : Runtime W) cfg op (w : W) :
  PrimFloat.leb (JitterFraction cfg) 0 = true ->
  (forall w0, ctx_Done rt w0 = ctx_Done rt' w0) ->
  (forall d w0, sleep_or_Done rt d w0 = sleep_or_Done rt' d w0) ->
  (forall d w0, addJitter rt d (JitterFraction cfg) w0 = (d, w0)) /\
  Do rt cfg op w = Do rt' cfg op w.
Proof.
  intros Hoff Hctx Hsleep. split.
  - intros d w0. apply addJitter_off, Hoff.
  - unfold Retry.Do.
    apply (loop_without_jitter rt rt' (withDefaults cfg) op Hoff Hctx Hsleep).
Qed.

(** ** Retry executor: [DoWithResult] *)

Lemma addJitter_with_cell {W L} (rt : Runtime (error := error) W) d jf w (l : L) :
  addJitter (with_cell rt) d jf (w, l) =
    ((addJitter rt d jf w).1, ((addJitter rt d jf w).2, l)).
Proof.
  unfold addJitter. destruct (PrimFloat.leb jf 0); [reflexivity |].
  simpl. destruct (rand_Float64 rt w) as [u w1]. simpl.
  destruct (rand_Intn rt 2 w1) as [c w2].
  destruct (c =? 0); reflexivity.
Qed.

Lemma iteration_cell {W T} (rt : Runtime W) cfg
    (op : W -> T * option error * W) attempt delay w (l : T) :
  iteration (with_cell rt) cfg (result_closure op) attempt delay (w, l) =
    match ctx_Done rt w with
    | (Some ctxErr, w1) => Return (Some ctxErr) (w1, l)
    | (None, w1) =>
        match op w1 with
        | (v, None, w2) => Return None (w2, v)
        | (v, Some err, w2) =>
            if negb (isRetryable err (RetryableErrors cfg))
            then Return (Some err) (w2, v)
            else if attempt =? MaxAttempts cfg
            then Return (Some err) (w2, v)
            else
              let j := addJitter rt delay (JitterFraction cfg) w2 in
              match sleep_or_Done rt j.1 j.2 with
              | (Some ctxErr, w4) => Return (Some ctxErr) (w4, v)
              | (None, w4) => Continue (nextDelay cfg delay) (Some err) (w4, v)
              end
        end
    end.
Proof.
  unfold Retry.iteration. simpl.
  destruct (ctx_Done rt w) as [[c |] w1]; [reflexivity |]. simpl.
  destruct (op w1) as [[v [err |]] w2]; [| reflexivity].
  destruct (negb _); [reflexivity |].
  destruct (attempt =? MaxAttempts cfg); [reflexivity |].
  rewrite addJitter_with_cell. simpl.
  destruct (sleep_or_Done rt _ _) as [[c |] w4]; reflexivity.
Qed.

Lemma iteration_error_only {W T} (rt : Runtime W) cfg
    (op : W -> T * option error * W) attempt delay w :
  iteration rt cfg (error_only op) attempt delay w =
    match ctx_Done rt w with
    | (Some ctxErr, w1) => Return (Some ctxErr) w1
    | (None, w1) =>
        match op w1 with
        | (v, None, w2) => Return None w2
        | (v, Some err, w2) =>
            if negb (isRetryable err (RetryableErrors cfg))
            then Return (Some err) w2
            else if attempt =? MaxAttempts cfg
            then Return (Some err) w2
            else
              let j := addJitter rt delay (JitterFraction cfg) w2 in
              match sleep_or_Done rt j.1 j.2 with
              | (Some ctxErr, w4) => Return (Some ctxErr) w4
              | (None, w4) => Continue (nextDelay cfg delay) (Some err) w4
              end
        end
    end.
Proof.
  unfold Retry.iteration, error_only.
  destruct (ctx_Done rt w) as [[c |] w1]; [reflexivity |].
  destruct (op w1) as [[v [err |]] w2]; [| reflexivity].
  destruct (negb _); [reflexivity |].
  destruct (attempt =? MaxAttempts cfg); [reflexivity |].
  destruct (addJitter rt delay (JitterFraction cfg) w2) as [d w3]. simpl.
  destruct (sleep_or_Done rt d w3) as [[c |] w4]; reflexivity.
Qed.

Lemma loop_cell {W T} (rt : Runtime W) cfg (op : W -> T * option error * W) :
  forall fuel attempt delay lastErr w (l : T),
    let res := loop (with_cell rt) cfg (result_closure op) fuel attempt delay
                 lastErr (w, l) in
    (res.1, res.2.1) = loop rt cfg (error_only op) fuel attempt delay lastErr w /\
    (res.1 = None ->
       (lastErr = None /\ res.2.2 = l /\ (fuel = 0%nat \/ MaxAttempts cfg < attempt)) \/
       exists w0 w1, op w0 = (res.2.2, None, w1)).
Proof.
  induction fuel as [| fuel IH]; intros attempt delay lastErr w l.
  - cbv zeta. rewrite !(loop_O errors_Is). simpl. split; [reflexivity |].
    intros ->. left. auto.
  - cbv zeta. rewrite !(loop_S errors_Is).
    destruct (Z.leb_spec attempt (MaxAttempts cfg)) as [Hle | Hgt].
    2:{ simpl. split; [reflexivity |]. intros ->. left. auto. }
    rewrite iteration_cell, iteration_error_only.
    destruct (ctx_Done rt w) as [[c |] w1];
      [simpl; split; [reflexivity | discriminate] |].
    destruct (op w1) as [[v [err |]] w2] eqn:Hop.
    2:{ simpl. split; [reflexivity |]. intros _. right. eauto. }
    destruct (negb _); [simpl; split; [reflexivity | discriminate] |].
    destruct (attempt =? MaxAttempts cfg);
      [simpl; split; [reflexivity | discriminate] |].
    cbv zeta.
    destruct (sleep_or_Done rt _ _) as [[c |] w4];
      [simpl; split; [reflexivity | discriminate] |].
    destruct (IH (attempt + 1) (nextDelay cfg delay) (Some err) w4 v) as [Hsim Hval].
    split; [exact Hsim |].
    intros Hnone. destruct (Hval Hnone) as [(Habs & _) | Hex];
      [discriminate | right; exact Hex].
Qed.

(** X15: [DoWithResult] runs exactly as [Do] does on the operation with
    its value dropped: same error, same effects.  When it returns [nil],
    the value it returns is the one a successful invocation produced (or
    the zero value, when no attempt is configured). *)
Theorem DoWithResult_as_Do {W T} (rt : Runtime W) cfg (zero : T)
    (op : W -> T * option error * W) (w : W) :
  let '(v, err, w') := DoWithResult errors_Is rt cfg zero op w in
  (err, w') = Do rt cfg (error_only op) w /\
  (err = None ->
     (attempts cfg <= 0 /\ v = zero) \/ exists w0 w1, op w0 = (v, None, w1)).
Proof.
  unfold DoWithResult, Retry.Do, attempts.
  pose proof (loop_cell rt (withDefaults cfg) op
                (Z.to_nat (MaxAttempts (withDefaults cfg))) 1
                (InitialDelay (withDefaults cfg)) None w zero) as H.
  cbv zeta in H.
  destruct (Retry.loop errors_Is (with_cell rt) _ _ _ _ _ _ _) as [err [w' v]].
  cbn [fst snd] in H. destruct H as [Hsim Hval].
  split; [exact Hsim |].
  intros Hnone. destruct (Hval Hnone) as [(_ & Hv & Hwhy) | Hex];
    [left | right; exact Hex].
  split; [lia | exact Hv].
Qed.

End RetryBehaviour.

(** ** Retry executor: further concrete runs *)

Section RetryBehaviourRuns.

Import Retry.

Lemma Do_cancelled_before_start_witness :
  Do_log String.eqb cancelled_runtime (mkConfig 3 0 0 0 0.5 [])
    (failing "timeout") 0%nat
  = (Some "context canceled", []).
Proof.
  refine (proj2 (Do_cancelled_before_start String.eqb cancelled_runtime
                   (mkConfig 3 0 0 0 0.5 []) (failing "timeout") 0%nat
                   "context canceled" _ _)).
  - reflexivity.
  - vm_compute. discriminate.
Defined.

Lemma Do_cancelled_while_waiting_witness :
  Do_log String.eqb deadline_runtime (mkConfig 3 0 0 0 0.5 [])
    (failing "timeout") 0%nat
  = (Some "context deadline exceeded", [Some "timeout"]).
Proof.
  refine (Do_cancelled_while_waiting String.eqb deadline_runtime
            (mkConfig 3 0 0 0 0.5 []) (failing "timeout") 0%nat 0%nat
            "timeout" 1%nat "context deadline exceeded" _ _ _ _ _).
  - reflexivity.
  - reflexivity.
  - reflexivity.
  - vm_compute. discriminate.
  - reflexivity.
Defined.

Lemma Do_without_jitter_witness :
  Do String.eqb (quiet_runtime 0.25 0) (mkConfig 3 0 0 0 0 []) (failing "timeout") 0%nat
  = Do String.eqb (quiet_runtime 0.75 1) (mkConfig 3 0 0 0 0 []) (failing "timeout") 0%nat.
Proof.
  refine (proj2 (Do_without_jitter String.eqb (quiet_runtime 0.25 0)
                   (quiet_runtime 0.75 1) (mkConfig 3 0 0 0 0 [])
                   (failing "timeout") 0%nat _ _ _)).
  - reflexivity.
  - reflexivity.
  - reflexivity.
Defined.

(** [DoWithResult] on an operation that succeeds at its third invocation
    returns the value of that invocation. *)
Example DoWithResult_third_time :
  DoWithResult String.eqb (quiet_runtime 0.5 1) (mkConfig 5 0 0 0 0.5 [])
    0%nat third_time 0%nat
  = (3%nat, None, 3%nat).
Proof. vm_compute. reflexivity. Qed.

End RetryBehaviourRuns.

(** ** Rate limiter: keys, bursts and the sweep *)

Section LimiterBehaviour.

Import RateLimit.

Implicit Types (rl : RateLimiter) (b : bucket) (key : string).

Lemma set_buckets_id rl : set_buckets rl (buckets rl) = rl.
Proof. destruct rl. reflexivity. Qed.

Lemma tokensToAdd_ext rl rl' b b' now :
  refillRate rl' = refillRate rl -> lastRefill b' = lastRefill b ->
  tokensToAdd rl' b' now = tokensToAdd rl b now.
Proof. intros Hr Hl. unfold tokensToAdd. rewrite Hr, Hl. reflexivity. Qed.

(** [allow] on a bucket that is in the map. *)
Lemma allow_known rl key t0 now b :
  buckets rl !! key = Some b ->
  allow rl key t0 now =
    match tokensToAdd rl b now with
    | None => (None, rl)
    | Some toAdd =>
        let b1 := refill rl b toAdd now in
        ((Some (consume rl b1).1),
         set_buckets rl (<[key := (consume rl b1).2]> (buckets rl)))
    end.
Proof.
  intros Hb. unfold allow, getBucket. rewrite Hb.
  destruct (tokensToAdd rl b now) as [toAdd |]; [| reflexivity].
  destruct (consume rl (refill rl b toAdd now)) as [ok b']. reflexivity.
Qed.

(** X16: a call of [allow] for one key leaves the bucket of every other
    key as it was, whether it is allowed, denied, or panics. *)
Theorem allow_other_keys rl key key' t0 now :
  key' <> key ->
  buckets (allow rl key t0 now).2 !! key' = buckets rl !! key'.
Proof.
  intros Hne. unfold allow, getBucket.
  destruct (buckets rl !! key) as [b |] eqn:Hb.
  - destruct (tokensToAdd rl b now) as [toAdd |]; [| reflexivity].
    destruct (consume rl (refill rl b toAdd now)) as [ok b']. simpl.
    apply lookup_insert_ne. congruence.
  - match goal with
    | |- context [tokensToAdd ?r ?x now] => destruct (tokensToAdd r x now) as [toAdd |]
    end.
    + match goal with
      | |- context [consume ?r ?x] => destruct (consume r x) as [ok b']
      end.
      simpl. rewrite !lookup_insert_ne by congruence. reflexivity.
    + simpl. apply lookup_insert_ne. congruence.
Qed.

Lemma allow_other_keys_witness :
  buckets (allow alice_seen "alice" 5600000000 5600000000).2 !! "bob"
  = buckets alice_seen !! "bob".
Proof.
  apply (allow_other_keys alice_seen "alice" "bob" 5600000000 5600000000).
  discriminate.
Defined.

(** Under a sensible configuration no machine integer wraps in [allow]:
    the refill is the capped sum and the decrement is exact. *)
Lemma refill_exact rl b x now :
  well_configured rl -> bucket_ok rl b ->
  tokensToAdd rl b now = Some x ->
  refill rl b x now =
    mkBucket (refilled rl b x) (if x >? 0 then now else lastRefill b).
Proof.
  intros (Hcap & Hrate & _ & Hroom) Hb Hadd.
  unfold tokensToAdd in Hadd.
  destruct (refillRate rl =? 0); [discriminate |].
  injection Hadd as <-.
  destruct (quot_int64_range (Sub now (lastRefill b)) (refillRate rl)
              (Sub_range _ _) Hrate) as [Hq Hle].
  rewrite int64_small by exact Hq.
  unfold refill, refilled, bucket_ok in *.
  destruct (Z.gtb_spec (Sub now (lastRefill b) ÷ refillRate rl) 0) as [Hpos | Hnpos].
  - rewrite int64_small by (unfold min_int64; lia). reflexivity.
  - destruct b. reflexivity.
Qed.

Lemma consume_exact rl b :
  well_configured rl -> bucket_ok rl b ->
  consume rl b =
    (bool_decide (1 <= tokens b),
     mkBucket (if bool_decide (1 <= tokens b) then tokens b - 1 else tokens b)
       (lastRefill b)).
Proof.
  intros (Hcap & Hrate & Hone & Hroom) Hb. unfold consume, bucket_ok in *.
  assert (0 <= max_int64 ÷ refillRate rl)
    by (apply Z.quot_pos; unfold max_int64; lia).
  rewrite Hone.
  destruct (Z.geb_spec (tokens b) 1) as [Hge | Hlt].
  - rewrite bool_decide_eq_true_2 by lia.
    rewrite int64_small by (unfold min_int64, max_int64 in *; lia). reflexivity.
  - rewrite bool_decide_eq_false_2 by lia. destruct b. reflexivity.
Qed.

Lemma getBucket_ok rl key t0 :
  well_configured rl -> buckets_ok rl -> bucket_ok rl (getBucket rl key t0).1.
Proof.
  intros Hwf Hinv. unfold getBucket.
  destruct (buckets rl !! key) as [b |] eqn:E; simpl.
  - exact (Hinv key b E).
  - unfold bucket_ok. simpl. destruct Hwf. lia.
Qed.

(** [allow] in exact arithmetic. *)
Lemma allow_exact rl key t0 now x :
  well_configured rl -> buckets_ok rl ->
  let b := (getBucket rl key t0).1 in
  tokensToAdd rl b now = Some x ->
  let tk := refilled rl b x in
  let ok := bool_decide (1 <= tk) in
  allow rl key t0 now =
    (Some ok,
     set_buckets rl
       (<[key := mkBucket (if ok then tk - 1 else tk)
                   (if x >? 0 then now else lastRefill b)]> (buckets rl))).
Proof.
  intros Hwf Hinv b Hadd tk ok.
  pose proof (getBucket_ok rl key t0 Hwf Hinv) as Hb. fold b in Hb.
  assert (Hrefill : bucket_ok rl (refill rl b x now))
    by (apply refill_ok; assumption).
  assert (Hallow : allow rl key t0 now =
            (Some (consume rl (refill rl b x now)).1,
             set_buckets rl (<[key := (consume rl (refill rl b x now)).2]> (buckets rl)))).
  { unfold allow. subst b. unfold getBucket in *.
    destruct (buckets rl !! key) as [b0 |] eqn:E; simpl in *.
    - rewrite Hadd. destruct (consume rl (refill rl b0 x now)). reflexivity.
    - unfold tokensToAdd in *. simpl in *. rewrite Hadd.
      unfold refill, consume. simpl.
      destruct (x >? 0); simpl;
        match goal with
        | |- context [if ?c then _ else _] => destruct c
        end; simpl; rewrite insert_insert_eq; reflexivity. }
  rewrite Hallow, (consume_exact rl _ Hwf Hrefill).
  rewrite (refill_exact rl b x now Hwf Hb Hadd). reflexivity.
Qed.

Lemma tokensToAdd_total rl b now :
  well_configured rl -> exists x, tokensToAdd rl b now = Some x.
Proof.
  intros (_ & Hrate & _). unfold tokensToAdd.
  destruct (Z.eqb_spec (refillRate rl) 0); [lia | eauto].
Qed.

Lemma allow_new_key rl key t0 now :
  well_configured rl -> buckets_ok rl ->
  buckets rl !! key = None -> 1 <= maxTokens rl ->
  exists t,
    (t = t0 \/ t = now) /\
    allow rl key t0 now =
      (Some true,
       set_buckets rl (<[key := mkBucket (maxTokens rl - 1) t]> (buckets rl))).
Proof.
  intros Hwf Hinv Hnew Hcap.
  assert (Hb : (getBucket rl key t0).1 = mkBucket (maxTokens rl) t0)
    by (unfold getBucket; rewrite Hnew; reflexivity).
  destruct (tokensToAdd_total rl (mkBucket (maxTokens rl) t0) now Hwf) as [x Hx].
  pose proof (allow_exact rl key t0 now x Hwf Hinv) as Hallow.
  cbv zeta in Hallow. rewrite Hb in Hallow. specialize (Hallow Hx).
  assert (Htk : refilled rl (mkBucket (maxTokens rl) t0) x = maxTokens rl).
  { unfold refilled, min. simpl.
    destruct (Z.gtb_spec x 0); [| reflexivity].
    destruct (Z.ltb_spec (maxTokens rl) (maxTokens rl + x)); [reflexivity | lia]. }
  rewrite Htk in Hallow. rewrite bool_decide_eq_true_2 in Hallow by exact Hcap.
  simpl in Hallow.
  exists (if x >? 0 then now else t0). split; [destruct (x >? 0); auto | exact Hallow].
Qed.

(** X17: on a well configured limiter with a capacity of at least one, the
    first request of a key that has no bucket is allowed, and leaves that
    key a bucket with [maxTokens - 1] tokens whose [lastRefill] is one of
    the two clock readings of the call. *)
Theorem first_request_allowed rl key t0 now :
  well_configured rl -> buckets_ok rl ->
  buckets rl !! key = None -> 1 <= maxTokens rl ->
  (allow rl key t0 now).1 = Some true /\
  exists b', buckets (allow rl key t0 now).2 !! key = Some b' /\
             tokens b' = maxTokens rl - 1 /\
             (lastRefill b' = t0 \/ lastRefill b' = now).
Proof.
  intros Hwf Hinv Hnew Hcap.
  destruct (allow_new_key rl key t0 now Hwf Hinv Hnew Hcap) as (t & Ht & ->).
  split; [reflexivity |]. simpl.
  exists (mkBucket (maxTokens rl - 1) t).
  split; [apply lookup_insert_eq |]. split; [reflexivity | exact Ht].
Qed.

Lemma default_limiter_ok : well_configured default_limiter /\ buckets_ok default_limiter.
Proof.
  apply (New_well_configured (mkConfig 0 0));
    vm_compute; split; first [reflexivity | discriminate].
Qed.

Lemma first_request_allowed_witness :
  (allow default_limiter "alice" 5000000000 5000000000).1 = Some true.
Proof.
  refine (proj1 (first_request_allowed default_limiter "alice" 5000000000 5000000000
                   (proj1 default_limiter_ok) (proj2 default_limiter_ok) _ _)).
  - reflexivity.
  - vm_compute. discriminate.
Defined.

(** X18: [allow] in exact arithmetic.  On a well configured limiter, a
    call that computes [x] tokens to add is allowed exactly when the
    bucket holds a token or a token is added to a bucket of non-zero
    capacity; the bucket is left with the capped sum, less the token
    taken, and its [lastRefill] moves to [now] exactly when [x > 0]. *)
Theorem allow_decision rl key t0 now x :
  well_configured rl -> buckets_ok rl ->
  let b := (getBucket rl key t0).1 in
  tokensToAdd rl b now = Some x ->
  let ok := bool_decide (1 <= tokens b \/ (1 <= x /\ 1 <= maxTokens rl)) in
  allow rl key t0 now =
    (Some ok,
     set_buckets rl
       (<[key := mkBucket (refilled rl b x - (if ok then 1 else 0))
                   (if x >? 0 then now else lastRefill b)]> (buckets rl))).
Proof.
  intros Hwf Hinv b Hadd ok.
  pose proof (getBucket_ok rl key t0 Hwf Hinv) as Hb. fold b in Hb.
  rewrite (allow_exact rl key t0 now x Hwf Hinv Hadd). fold b.
  assert (Hok : bool_decide (1 <= refilled rl b x) = ok).
  { subst ok. apply bool_decide_ext. unfold refilled, min, bucket_ok in *.
    destruct (Z.gtb_spec x 0);
      [destruct (Z.ltb_spec (maxTokens rl) (tokens b + x)) |]; lia. }
  rewrite Hok. destruct ok; [reflexivity |].
  rewrite Z.sub_0_r. reflexivity.
Qed.

Lemma allow_decision_witness :
  allow alice_seen "alice" 5600000000 5600000000 =
    (Some true,
     set_buckets alice_seen
       (<["alice" := mkBucket 58 5000000000]> (buckets alice_seen))).
Proof.
  exact (allow_decision alice_seen "alice" 5600000000 5600000000 0
           (proj1 (allow_ok default_limiter "alice" 5000000000 5000000000
                     (proj1 default_limiter_ok) (proj2 default_limiter_ok)))
           (proj1 (proj2 (allow_ok default_limiter "alice" 5000000000 5000000000
                     (proj1 default_limiter_ok) (proj2 default_limiter_ok))))
           eq_refl).
Defined.

(** Within one refill interval of the last refill (or before it, on a
    clock that stepped back) no token is added. *)
Lemma tokensToAdd_within rl b now :
  well_configured rl -> Sub now (lastRefill b) < refillRate rl ->
  exists x, tokensToAdd rl b now = Some x /\ x <= 0.
Proof.
  intros (_ & Hrate & _) Hnear. unfold tokensToAdd.
  destruct (Z.eqb_spec (refillRate rl) 0); [lia |].
  destruct (quot_int64_range (Sub now (lastRefill b)) (refillRate rl)
              (Sub_range _ _) Hrate) as [Hq _].
  rewrite int64_small by exact Hq.
  eexists. split; [reflexivity |].
  Z.to_euclidean_division_equations. nia.
Qed.

Lemma allow_within rl key t0 now b :
  well_configured rl -> buckets_ok rl ->
  buckets rl !! key = Some b ->
  Sub now (lastRefill b) < refillRate rl ->
  allow rl key t0 now =
    (Some (bool_decide (1 <= tokens b)),
     set_buckets rl
       (<[key := mkBucket (if bool_decide (1 <= tokens b) then tokens b - 1 else tokens b)
                   (lastRefill b)]> (buckets rl))).
Proof.
  intros Hwf Hinv Hb Hnear.
  destruct (tokensToAdd_within rl b now Hwf Hnear) as (x & Hx & Hle).
  pose proof (allow_exact rl key t0 now x Hwf Hinv) as Hallow.
  assert (Hg : (getBucket rl key t0).1 = b)
    by (unfold getBucket; rewrite Hb; reflexivity).
  cbv zeta in Hallow. rewrite Hg in Hallow. specialize (Hallow Hx).
  assert (Hx0 : (x >? 0) = false) by (destruct (Z.gtb_spec x 0); [lia | reflexivity]).
  unfold refilled in Hallow. rewrite Hx0 in Hallow. exact Hallow.
Qed.

(** X19: a denied request costs nothing.  On a well configured limiter, a
    request that arrives within one refill interval of its bucket's last
    refill and is denied leaves the whole limiter as it was, and the bucket
    was empty. *)
Theorem denied_request_changes_nothing rl key t0 now b :
  well_configured rl -> buckets_ok rl ->
  buckets rl !! key = Some b ->
  Sub now (lastRefill b) < refillRate rl ->
  (allow rl key t0 now).1 = Some false ->
  (allow rl key t0 now).2 = rl /\ tokens b = 0.
Proof.
  intros Hwf Hinv Hb Hnear Hdenied.
  rewrite (allow_within rl key t0 now b Hwf Hinv Hb Hnear) in *.
  simpl in Hdenied. injection Hdenied as Hdec.
  rewrite Hdec. simpl.
  apply bool_decide_eq_false_1 in Hdec.
  pose proof (Hinv key b Hb) as Hok. unfold bucket_ok in Hok.
  split; [| lia].
  destruct b as [tk lr]. simpl.
  rewrite insert_id by exact Hb. apply set_buckets_id.
Qed.

(** X20: a burst.  Requests of one key that all arrive within one refill
    interval of the bucket's last refill are allowed while the bucket holds
    tokens and denied from then on: with [k] tokens in the bucket, the
    first [k] are allowed, the others denied, and the bucket keeps its
    refill instant and loses one token per allowed request. *)
Theorem burst_spends_tokens rl key b (times : list Time) :
  well_configured rl -> buckets_ok rl ->
  buckets rl !! key = Some b ->
  Forall (fun now => Sub now (lastRefill b) < refillRate rl) times ->
  let k := Z.to_nat (tokens b) in
  let n := length times in
  (allow_all rl key times).1 =
    replicate (Nat.min n k) (Some true) ++ replicate (n - k) (Some false) /\
  buckets (allow_all rl key times).2 !! key =
    Some (mkBucket (tokens b - Z.of_nat (Nat.min n k)) (lastRefill b)).
Proof.
  revert rl b. induction times as [| now rest IH]; intros rl b Hwf Hinv Hb Hnear.
  - simpl. rewrite Z.sub_0_r. destruct b. split; [reflexivity | exact Hb].
  - apply Forall_cons in Hnear as [Hnow Hrest].
    pose proof (allow_within rl key now now b Hwf Hinv Hb Hnow) as Hallow.
    destruct (allow_ok rl key now now Hwf Hinv) as (Hwf' & Hinv' & _).
    pose proof (Hinv key b Hb) as Hok. unfold bucket_ok in Hok.
    cbn [allow_all]. rewrite Hallow in *. cbn [snd] in Hwf', Hinv'.
    set (b' := mkBucket (if bool_decide (1 <= tokens b) then tokens b - 1 else tokens b)
                 (lastRefill b)) in *.
    set (rl' := set_buckets rl (<[key := b']> (buckets rl))) in *.
    assert (Hb' : buckets rl' !! key = Some b') by apply lookup_insert_eq.
    specialize (IH rl' b' Hwf' Hinv' Hb' Hrest).
    destruct (allow_all rl' key rest) as [rs rl''].
    cbv zeta in IH. cbn [fst snd length] in *.
    destruct IH as [IHr IHb]. rewrite IHr, IHb. subst b'. cbn [tokens lastRefill].
    destruct (bool_decide_reflect (1 <= tokens b)) as [Hone | Hnone].
    + replace (Z.to_nat (tokens b)) with (S (Z.to_nat (tokens b - 1))) by lia.
      cbn [Nat.min Nat.sub replicate app]. split; [reflexivity |].
      f_equal. f_equal. lia.
    + replace (tokens b) with 0 by lia. cbn [Z.to_nat].
      rewrite !Nat.min_0_r, !Nat.sub_0_r. cbn [replicate app].
      split; reflexivity.
Qed.

Lemma alice_seen_ok : well_configured alice_seen /\ buckets_ok alice_seen.
Proof.
  destruct (allow_ok default_limiter "alice" 5000000000 5000000000
              (proj1 default_limiter_ok) (proj2 default_limiter_ok)) as (H1 & H2 & _).
  split; assumption.
Qed.

Lemma burst_spends_tokens_witness :
  (allow_all alice_seen "alice" (replicate 60 5600000000%Z)).1 =
    replicate 59 (Some true) ++ [Some false].
Proof.
  refine (proj1 (burst_spends_tokens alice_seen "alice" (mkBucket 59 5000000000)
                   (replicate 60 5600000000%Z)
                   (proj1 alice_seen_ok) (proj2 alice_seen_ok) _ _)).
  - reflexivity.
  - apply Forall_forall. intros now Hin%elem_of_replicate. destruct Hin as [-> _].
    vm_compute. reflexivity.
Defined.

Lemma allow_all_ok rl key (times : list Time) :
  well_configured rl -> buckets_ok rl ->
  well_configured (allow_all rl key times).2 /\ buckets_ok (allow_all rl key times).2.
Proof.
  revert rl. induction times as [| now rest IH]; intros rl Hwf Hinv.
  - split; assumption.
  - cbn [allow_all].
    destruct (allow_ok rl key now now Hwf Hinv) as (Hwf' & Hinv' & _).
    destruct (allow rl key now now) as [r rl']. cbn [snd] in *.
    specialize (IH rl' Hwf' Hinv').
    destruct (allow_all rl' key rest) as [rs rl'']. exact IH.
Qed.

(** The drained bucket of "alice": a sixty-first request within the same
    second. *)
Lemma denied_request_changes_nothing_witness :
  let rl := (allow_all default_limiter "alice" (replicate 60 5000000000%Z)).2 in
  (allow rl "alice" 5000000000 5000000000).2 = rl.
Proof.
  intros rl.
  assert (Hb : buckets rl !! "alice" = Some (mkBucket 0 5000000000))
    by (vm_compute; reflexivity).
  assert (Hnear : Sub 5000000000 (lastRefill (mkBucket 0 5000000000)) < refillRate rl)
    by (vm_compute; reflexivity).
  assert (Hdenied : (allow rl "alice" 5000000000 5000000000).1 = Some false)
    by (vm_compute; reflexivity).
  exact (proj1 (denied_request_changes_nothing rl "alice" 5000000000 5000000000
                  (mkBucket 0 5000000000)
                  (proj1 (allow_all_ok default_limiter "alice" _
                            (proj1 default_limiter_ok) (proj2 default_limiter_ok)))
                  (proj2 (allow_all_ok default_limiter "alice" _
                            (proj1 default_limiter_ok) (proj2 default_limiter_ok)))
                  Hb Hnear Hdenied)).
Defined.

Lemma cleanup_lookup rl now key :
  buckets (cleanup rl now) !! key =
    match buckets rl !! key with
    | Some b => if bool_decide (10 * minute < Sub now (lastRefill b)) then None else Some b
    | None => None
    end.
Proof.
  unfold cleanup. cbn [buckets set_buckets].
  destruct (buckets rl !! key) as [b |] eqn:Hb.
  - destruct (bool_decide_reflect (10 * minute < Sub now (lastRefill b))) as [Hidle | Hfresh].
    + apply map_lookup_filter_None. right. intros b' Hb'. cbn [snd].
      assert (b' = b) as -> by congruence.
      destruct (Z.gtb_spec (Sub now (lastRefill b)) (10 * minute)); [discriminate | lia].
    + apply map_lookup_filter_Some. split; [exact Hb |]. cbn [snd].
      destruct (Z.gtb_spec (Sub now (lastRefill b)) (10 * minute)); [lia | reflexivity].
  - apply map_lookup_filter_None. left. exact Hb.
Qed.

(** X21: one round of the sweep removes exactly the buckets whose last
    refill lies more than ten minutes before the sweep's clock reading;
    every other bucket stays as it is, no bucket appears, and the
    configuration of the limiter is untouched. *)
Theorem cleanup_removes_idle rl now :
  (forall key b, buckets (cleanup rl now) !! key = Some b <->
                 buckets rl !! key = Some b /\ Sub now (lastRefill b) <= 10 * minute) /\
  maxTokens (cleanup rl now) = maxTokens rl /\
  refillRate (cleanup rl now) = refillRate rl /\
  tokensPerReq (cleanup rl now) = tokensPerReq rl.
Proof.
  split; [| repeat split]. intros key b. rewrite cleanup_lookup.
  destruct (buckets rl !! key) as [b0 |].
  - destruct (bool_decide_reflect (10 * minute < Sub now (lastRefill b0))) as [Hidle | Hfresh].
    + split; [discriminate |]. intros [Heq Hle]. injection Heq as ->. lia.
    + split.
      * intros Heq. injection Heq as ->. split; [reflexivity | lia].
      * intros [Heq _]. exact Heq.
  - split; [discriminate | intros [Heq _]; discriminate].
Qed.

(** X22: a swept key starts over.  On a well configured limiter with a
    capacity of at least one, a key whose bucket the sweep removes has its
    next request allowed from a full bucket, whatever the removed bucket
    held and however slow the refill is. *)
Theorem swept_key_starts_full rl sweep key b t0 now :
  well_configured rl -> buckets_ok rl -> 1 <= maxTokens rl ->
  buckets rl !! key = Some b ->
  10 * minute < Sub sweep (lastRefill b) ->
  let rl' := cleanup rl sweep in
  (allow rl' key t0 now).1 = Some true /\
  exists b', buckets (allow rl' key t0 now).2 !! key = Some b' /\
             tokens b' = maxTokens rl - 1.
Proof.
  intros Hwf Hinv Hcap Hb Hidle rl'.
  assert (Hwf' : well_configured rl')
    by (apply (well_configured_ext rl); [repeat split | exact Hwf]).
  assert (Hinv' : buckets_ok rl') by (apply cleanup_ok; exact Hinv).
  assert (Hgone : buckets rl' !! key = None).
  { unfold rl'. rewrite cleanup_lookup, Hb.
    rewrite bool_decide_eq_true_2 by exact Hidle. reflexivity. }
  destruct (allow_new_key rl' key t0 now Hwf' Hinv' Hgone Hcap) as (t & _ & ->).
  split; [reflexivity |]. cbn [snd buckets set_buckets].
  exists (mkBucket (maxTokens rl' - 1) t).
  split; [apply lookup_insert_eq | reflexivity].
Qed.

Lemma swept_key_starts_full_witness :
  let rl := (allow (New (mkConfig 1 (3600 * 1000000000))) "alice" 5000000000 5000000000).2 in
  (allow rl "alice" 665000000000 665000000000).1 = Some false /\
  (allow (cleanup rl 665000000000) "alice" 665000000000 665000000000).1 = Some true.
Proof.
  intros rl. split; [vm_compute; reflexivity |].
  assert (Hnew : well_configured (New (mkConfig 1 (3600 * 1000000000))) /\
                 buckets_ok (New (mkConfig 1 (3600 * 1000000000))))
    by (apply (New_well_configured (mkConfig 1 (3600 * 1000000000)));
        vm_compute; split; first [reflexivity | discriminate]).
  destruct (allow_ok _ "alice" 5000000000 5000000000 (proj1 Hnew) (proj2 Hnew))
    as (Hwf & Hinv & _).
  assert (Hcap : 1 <= maxTokens rl) by (vm_compute; discriminate).
  assert (Hb : buckets rl !! "alice" = Some (mkBucket 0 5000000000))
    by (vm_compute; reflexivity).
  assert (Hidle : 10 * minute < Sub 665000000000 (lastRefill (mkBucket 0 5000000000)))
    by (vm_compute; reflexivity).
  exact (proj1 (swept_key_starts_full rl 665000000000 "alice" (mkBucket 0 5000000000)
                  665000000000 665000000000 Hwf Hinv Hcap Hb Hidle)).
Defined.

(** The handler on a request whose bucket is within one refill interval
    of its last refill. *)
Lemma Middleware_within {H R} rl req t0 now (next : H -> R * H) (h : H) b :
  well_configured rl -> buckets_ok rl ->
  buckets rl !! requestKey req = Some b ->
  Sub now (lastRefill b) < refillRate rl ->
  Middleware rl req t0 now next h =
    if bool_decide (1 <= tokens b)
    then (Some (Next (next h).1),
          set_buckets rl (<[requestKey req := mkBucket (tokens b - 1) (lastRefill b)]>
                            (buckets rl)),
          (next h).2)
    else (Some TooManyRequests,
          set_buckets rl (<[requestKey req := mkBucket (tokens b) (lastRefill b)]>
                            (buckets rl)),
          h).
Proof.
  intros Hwf Hinv Hb Hnear. unfold Middleware.
  rewrite (allow_within rl (requestKey req) t0 now b Hwf Hinv Hb Hnear).
  destruct (bool_decide (1 <= tokens b)); [| reflexivity].
  destruct (next h) as [r h']. reflexivity.
Qed.



End LimiterBehaviour.

(** ** The clients: what the breaker sees of a retried operation *)

Section ClientBehaviour.

Import CircuitBreaker Retry Client.

Context (errors_Is : error -> error -> bool).

Lemma closed_not_due cb now :
  state cb = StateClosed -> expiry cb = zeroTime -> transition_due cb now = false.
Proof. unfold transition_due. intros -> ->. reflexivity. Qed.

(** The closure on a world with a log, in terms of [Do_log]. *)
Lemma retried_log {W} (rt : Runtime W) cfg op (w : W) r log :
  Do_log errors_Is rt cfg op w = (r, log) ->
  exists w',
    retried errors_Is (with_log rt) cfg (logged op) (w, []) = (Returned r, (w', log)).
Proof.
  unfold Do_log, retried.
  destruct (Do errors_Is (with_log rt) cfg (logged op) (w, [])) as [r0 [w0 log0]].
  intros [= -> ->]. eauto.
Qed.

(** X24: one failure per call, however many attempts.  On a Closed
    breaker that keeps no counting interval, with a context that is not
    cancelled and an operation that fails retryably on every invocation,
    [executeWithRetry] invokes the operation as often as [Do] allows and
    the breaker records a single failure: its consecutive failures grow by
    one, and it opens only if that one reaches the threshold. *)
Theorem executeWithRetry_one_failure {W} cb (rt : Runtime W) cfg op t1 t2 (w : W) :
  state cb = StateClosed -> expiry cb = zeroTime ->
  never_cancelled rt -> always_fails_retryable errors_Is cfg op ->
  1 <= attempts cfg ->
  let '(o, cb', (_, log)) :=
    executeWithRetry errors_Is cb (with_log rt) cfg (logged op) t1 t2 (w, []) in
  let cf' := wrap32 (ConsecutiveFailures (cb_counts cb) + 1) in
  Z.of_nat (length log) = attempts cfg /\
  (exists e, o = Returned (Some e) /\ last log = Some (Some e)) /\
  (cf' < failureThreshold cb ->
     state cb' = StateClosed /\ ConsecutiveFailures (cb_counts cb') = cf') /\
  (failureThreshold cb <= cf' ->
     state cb' = StateOpen /\ expiry cb' = Add t2 (timeout cb)).
Proof.
  intros Hclosed Hexp Hnc Hall Hn.
  destruct (Do_retries errors_Is rt cfg op w Hnc
              (always_fails_only_retryably errors_Is _ _ Hall))
    as (r & log & HDo & Hlast & Hlen & _ & Hres).
  specialize (Hlast Hn).
  assert (Hsome : exists e, r = Some e).
  { apply last_Some_elem_of in Hlast. rewrite Forall_forall in Hres.
    destruct (Hres r Hlast) as [w0 Hw0].
    destruct (Hall w0) as (e & He & _). exists e. congruence. }
  destruct Hsome as [e ->].
  destruct (retried_log rt cfg op w _ _ HDo) as [w' Hret].
  unfold executeWithRetry.
  pose proof (Execute_closed_failure cb
                (retried errors_Is (with_log rt) cfg (logged op)) t1 t2 (w, [])
                Hclosed Hexp) as Hexec.
  rewrite Hret in Hexec. specialize (Hexec eq_refl). cbv zeta in Hexec.
  destruct (Execute cb (retried errors_Is (with_log rt) cfg (logged op)) t1 t2 (w, []))
    as [[o cb'] [w'' log'']].
  cbn [fst snd] in Hexec.
  destruct Hexec as (Ho & Hw & _ & _ & Hbelow & Hreach).
  injection Hw as -> ->. subst o. cbv zeta.
  split; [apply Hlen; eauto |].
  split; [eauto |].
  split.
  - intros Hlt. destruct (Hbelow Hlt) as (Hs & _ & _ & Hcf). auto.
  - intros Hge. destruct (Hreach Hge) as (Hs & _ & _ & He). auto.
Qed.

Lemma onSuccess_closed cb now :
  let cb' := onSuccess (admission cb) StateClosed now in
  state cb' = state cb /\ generation cb' = generation cb /\ expiry cb' = expiry cb /\
  ConsecutiveFailures (cb_counts cb') = 0 /\
  TotalFailures (cb_counts cb') = TotalFailures (cb_counts cb) /\
  ConsecutiveSuccesses (cb_counts cb')
    = wrap32 (ConsecutiveSuccesses (cb_counts cb) + 1).
Proof.
  destruct cb as [nm mr iv tm ft st cbk s g [rq ts tf cs cf] e ns].
  unfold onSuccess, admission, incRequests, set_counts. cbn.
  repeat split.
Qed.

(** X25: a success after retries hides the failures before it.  On a
    Closed breaker that keeps no counting interval, when [Do] returns
    [nil] the breaker records one success: it stays Closed in its
    generation, its consecutive failures are reset to zero and its total
    failures are as before, while every invocation but the last failed. *)
Theorem executeWithRetry_success_hides_failures {W} cb (rt : Runtime W) cfg op
    t1 t2 (w : W) :
  state cb = StateClosed -> expiry cb = zeroTime ->
  (Do_log errors_Is rt cfg op w).1 = None ->
  let '(o, cb', (_, log)) :=
    executeWithRetry errors_Is cb (with_log rt) cfg (logged op) t1 t2 (w, []) in
  o = Returned None /\
  state cb' = StateClosed /\ generation cb' = generation cb /\
  ConsecutiveFailures (cb_counts cb') = 0 /\
  TotalFailures (cb_counts cb') = TotalFailures (cb_counts cb) /\
  ConsecutiveSuccesses (cb_counts cb')
    = wrap32 (ConsecutiveSuccesses (cb_counts cb) + 1) /\
  Forall (retryable_failure errors_Is cfg) (take (length log - 1) log).
Proof.
  intros Hclosed Hexp Hnil.
  destruct (Do_trace errors_Is rt cfg op w) as (r & log & HDo & Hnone & Hsome).
  rewrite HDo in Hnil. cbn [fst] in Hnil. subst r.
  destruct (retried_log rt cfg op w _ _ HDo) as [w' Hret].
  unfold executeWithRetry.
  rewrite (Execute_records cb _ t1 t2 (w, [])
             (closed_not_due cb t1 Hclosed Hexp) (closed_not_due cb t2 Hclosed Hexp)
             (or_introl Hclosed)).
  rewrite Hret. cbn [fst snd succeeded]. rewrite Hclosed.
  destruct (onSuccess_closed cb t2) as (Hs & Hg & _ & Hcf & Htf & Hcs).
  split; [reflexivity |].
  split; [rewrite Hs; exact Hclosed |].
  split; [exact Hg |]. split; [exact Hcf |]. split; [exact Htf |].
  split; [exact Hcs |].
  destruct (Z_le_gt_dec (attempts cfg) 0) as [Hle | Hgt].
  - destruct (Hnone Hle) as [_ ->]. constructor.
  - destruct (Hsome ltac:(lia)) as (_ & Hall & _). exact Hall.
Qed.

(** X26: an open breaker spares the service.  While the breaker is Open
    and its timeout has not passed, [executeWithRetry] returns
    [ErrCircuitOpen] at once: the operation is not invoked, the context is
    not polled, nothing is waited for, and the breaker is as it was. *)
Theorem executeWithRetry_open_spares {W} cb (rt : Runtime W) cfg op t1 t2 (w : W) :
  state cb = StateOpen -> t1 <= expiry cb ->
  executeWithRetry errors_Is cb rt cfg op t1 t2 w
    = (Returned (Some ErrCircuitOpen), cb, w).
Proof.
  intros Hopen Hearly. unfold executeWithRetry.
  apply Execute_open_rejects; assumption.
Qed.

End ClientBehaviour.

(** *** Runs of the client *)

Section ClientRuns.

Import CircuitBreaker Retry Client.

Lemma quiet_never_cancelled : never_cancelled quiet.
Proof. split; intros; reflexivity. Qed.

Lemma executeWithRetry_one_failure_witness :
  let '(o, cb', (_, log)) :=
    executeWithRetry same_error default_breaker (with_log quiet) DefaultConfig
      (logged down) 2000 3000 (0%nat, []) in
  length log = 3%nat /\ state cb' = StateClosed /\
  ConsecutiveFailures (cb_counts cb') = 1.
Proof.
  assert (Hclosed : state default_breaker = StateClosed) by reflexivity.
  assert (Hexp : expiry default_breaker = zeroTime) by reflexivity.
  assert (Hall : always_fails_retryable same_error DefaultConfig down)
    by (intros w; exists (ErrOperation "down"); split; reflexivity).
  assert (Hn : 1 <= attempts (error := error) DefaultConfig)
    by (vm_compute; discriminate).
  pose proof (executeWithRetry_one_failure same_error default_breaker quiet
                DefaultConfig down 2000 3000 0%nat
                Hclosed Hexp quiet_never_cancelled Hall Hn) as Hone.
  destruct (executeWithRetry same_error default_breaker (with_log quiet) DefaultConfig
              (logged down) 2000 3000 (0%nat, [])) as [[o cb'] [w' log]].
  cbv zeta in Hone. destruct Hone as (Hlen & _ & Hbelow & _).
  assert (Hlt : wrap32 (ConsecutiveFailures (cb_counts default_breaker) + 1)
                < failureThreshold default_breaker) by (vm_compute; reflexivity).
  destruct (Hbelow Hlt) as [Hs Hcf].
  split; [| split; [exact Hs | rewrite Hcf; reflexivity]].
  change (attempts (error := error) DefaultConfig) with 3 in Hlen. lia.
Defined.

(** [strained] stands at four consecutive failures; the operation is down
    twice and then answers. *)
Lemma executeWithRetry_success_hides_failures_witness :
  ConsecutiveFailures (cb_counts strained) = 4 /\
  let '(o, cb', (_, log)) :=
    executeWithRetry same_error strained (with_log quiet) DefaultConfig
      (logged flaky) 4000 5000 (0%nat, []) in
  o = Returned None /\ state cb' = StateClosed /\
  ConsecutiveFailures (cb_counts cb') = 0.
Proof.
  split; [vm_compute; reflexivity |].
  assert (Hclosed : state strained = StateClosed) by (vm_compute; reflexivity).
  assert (Hexp : expiry strained = zeroTime) by (vm_compute; reflexivity).
  assert (Hnil : (Do_log same_error quiet DefaultConfig flaky 0%nat).1 = None)
    by (vm_compute; reflexivity).
  pose proof (executeWithRetry_success_hides_failures same_error strained quiet
                DefaultConfig flaky 4000 5000 0%nat Hclosed Hexp Hnil) as Hhid.
  destruct (executeWithRetry same_error strained (with_log quiet) DefaultConfig
              (logged flaky) 4000 5000 (0%nat, [])) as [[o cb'] [w' log]].
  destruct Hhid as (Ho & Hs & _ & Hcf & _). auto.
Defined.

Lemma executeWithRetry_open_spares_witness :
  executeWithRetry same_error tripped quiet DefaultConfig down 3000 4000 0%nat
    = (Returned (Some ErrCircuitOpen), tripped, 0%nat).
Proof.
  apply (executeWithRetry_open_spares same_error tripped quiet DefaultConfig down
           3000 4000 0%nat).
  - vm_compute. reflexivity.
  - vm_compute. discriminate.
Defined.

End ClientRuns.
